(** * A shallow embedding of the ttstream transport of kitex

    The Go package [ttstream] (transport.go, connection_buffer.go) and the
    generic [container.Pipe] it uses.  Go's runtime behaviour that matters
    here (a panic on a send to or a close of a closed channel, a goroutine
    that blocks forever, a loop that never exits) is made explicit by the
    outcome type [go]. *)

From Stdlib Require Import ZArith Lia.
From stdpp Require Import base list gmap strings.

Open Scope Z_scope.

(** ** Go runtime outcomes *)

Inductive go (A : Type) : Type :=
| Ret (a : A)
| Panic (msg : string)
| Blocked
| Diverge.
Arguments Ret {A} a.
Arguments Panic {A} msg.
Arguments Blocked {A}.
Arguments Diverge {A}.

Definition go_bind {A B} (m : go A) (k : A -> go B) : go B :=
  match m with
  | Ret a => k a
  | Panic s => Panic s
  | Blocked => Blocked
  | Diverge => Diverge
  end.

Notation "'let!' x := m 'in' k" := (go_bind m (fun x => k))
  (at level 200, x name, m at level 100, k at level 200).

(** Go error values used by the package. [EOF] is [io.EOF]; the pipe's
    [PipeEOF] is defined as [io.EOF]. *)
Inductive goerr : Type :=
| EOF
| Errorf (msg : string)
| CodecErr (msg : string).

Definition PipeEOF : goerr := EOF.

(** ** container.Pipe (src/unnamed/part_001) *)

Module Pipe.

Record Pipe (Item : Type) : Type := mkPipe {
  queue : list Item;
  closed : bool
}.
Arguments mkPipe {Item} queue closed.
Arguments queue {Item} p.
Arguments closed {Item} p.

Section Ops.
Context {Item : Type}.

Definition NewPipe : Pipe Item := mkPipe [] false.

(** [Write(items ...Item)]: appends every item to the queue, then signals.
    There is no check of [closed] and no error result. *)
Definition Write (items : list Item) (p : Pipe Item) : Pipe Item :=
  mkPipe (queue p ++ items) (closed p).

(** [Close()]: sets [closed] under the lock. *)
Definition Close (p : Pipe Item) : Pipe Item := mkPipe (queue p) true.

(** The first loop of [Read]: [for i := 0; i < len(items); i++] taking
    [queue.Get()]; in a run with a single goroutine the retry after
    [runtime.Gosched()] sees the same empty queue. Returns the items copied
    into [items[0:n]] and the rest of the queue. *)
Fixpoint get_loop (k : nat) (q : list Item) : list Item * list Item :=
  match k, q with
  | O, _ => ([], q)
  | S _, [] => ([], [])
  | S k', x :: q' => let '(got, rest) := get_loop k' q' in (x :: got, rest)
  end.

(** [Read(items)] with [len(items) = k]: returns [items[0:n]], the error
    and the new pipe. When nothing was read the wait loop checks emptiness
    first, then [closed]: an empty closed pipe gives [(0, PipeEOF)], an
    empty open pipe waits on the condition variable (no writer runs in a
    single-goroutine run), and a non-empty queue jumps back to [READ], which
    with [k = 0] reads nothing again forever. *)
Definition Read (k : nat) (p : Pipe Item)
  : go (list Item * option goerr * Pipe Item) :=
  let '(got, rest) := get_loop k (queue p) in
  match got with
  | _ :: _ => Ret (got, None, mkPipe rest (closed p))
  | [] =>
      match rest with
      | _ :: _ => Diverge
      | [] => if closed p then Ret ([], Some PipeEOF, p) else Blocked
      end
  end.

(** Successive [Read] calls of one reader with a buffer of [k] items,
    until [EOF]: the batches read, in order. [None] when the reader blocks,
    diverges, or the fuel runs out. *)
Fixpoint read_until_eof (fuel : nat) (k : nat) (p : Pipe Item)
  : option (list (list Item)) :=
  match fuel with
  | O => None
  | S fuel' =>
      match Read k p with
      | Ret (got, None, p') =>
          match read_until_eof fuel' k p' with
          | Some bs => Some (got :: bs)
          | None => None
          end
      | Ret ([], Some EOF, _) => Some []
      | _ => None
      end
  end.

(** [n] successive single-item writes [Write(x_1)], ..., [Write(x_n)]. *)
Definition write_each (xs : list Item) (p : Pipe Item) : Pipe Item :=
  fold_left (fun p x => Write [x] p) xs p.

End Ops.
End Pipe.

(** ** Go channels *)

Module Chan.

Record Chan (A : Type) : Type := mkChan {
  buf : list A;
  cap : nat;
  chclosed : bool
}.
Arguments mkChan {A} buf cap chclosed.
Arguments buf {A} c.
Arguments cap {A} c.
Arguments chclosed {A} c.

Section Ops.
Context {A : Type}.

Definition make (n : nat) : Chan A := mkChan [] n false.

(** [c <- x]: a send on a closed channel panics; a send on a full buffered
    channel blocks until a receiver frees a slot. *)
Definition send (x : A) (c : Chan A) : go (Chan A) :=
  if chclosed c then Panic "send on closed channel"
  else if decide (length (buf c) < cap c)%nat
       then Ret (mkChan (buf c ++ [x]) (cap c) false)
       else Blocked.

(** [close(c)]: closing a closed channel panics. *)
Definition close (c : Chan A) : go (Chan A) :=
  if chclosed c then Panic "close of closed channel"
  else Ret (mkChan (buf c) (cap c) true).

End Ops.
End Chan.

(** ** Frames and streams *)

Inductive StreamingMode : Type :=
| StreamingNone | StreamingUnary | StreamingClient | StreamingServer
| StreamingBidirectional.

Inductive frameType : Type :=
| metaFrameType | headerFrameType | dataFrameType | trailerFrameType.

Record streamFrame : Type := mkStreamFrame {
  sid : Z;
  method : string;
  header : list (string * string);
  trailer : list (string * string)
}.

Record Frame : Type := mkFrame {
  fr_meta : streamFrame;
  typ : frameType;
  payload : list Byte.byte
}.

Definition newFrame (meta : streamFrame) (ftype : frameType)
  (p : list Byte.byte) : Frame := mkFrame meta ftype p.

Record stream : Type := mkStream {
  s_frame : streamFrame;
  s_mode : StreamingMode
}.

Definition s_sid (s : stream) : Z := sid (s_frame s).

(** [serviceinfo.MethodInfo] exposes [StreamingMode()]. *)
Record MethodInfo : Type := mkMethodInfo { StreamingMode_of : StreamingMode }.

(** Modelled from the spec: the method directory [ServiceInfo.MethodInfo]
    (package serviceinfo, not in this source tree), the external
    "lookup(method) -> { streamingMode }"; a method missing from the
    directory has no entry ([None], the nil [MethodInfo] interface). *)
Definition ServiceInfo : Type := string -> option MethodInfo.

(** [sinfo.MethodInfo(name).StreamingMode()]: calling a method on the nil
    interface value of a missing entry is a Go runtime panic. *)
Definition methodStreamingMode (sinfo : ServiceInfo) (name : string)
  : go StreamingMode :=
  match sinfo name with
  | Some mi => Ret (StreamingMode_of mi)
  | None => Panic "invalid memory address or nil pointer dereference"
  end.

(** [streamIOMsg] and [streamIO] (connection_buffer.go). The close
    callback itself is represented by whether it is set. *)
Record streamIOMsg : Type := mkMsg {
  msg_payload : list Byte.byte;
  msg_exception : option goerr
}.

Record streamIO : Type := mkStreamIO {
  sio_stream : stream;
  sio_pipe : Pipe.Pipe streamIOMsg;
  sio_exception : option goerr;
  sio_eofFlag : Z;
  sio_callbackFlag : Z;
  sio_hasCloseCallback : bool
}.

Definition newStreamIO (s : stream) : streamIO :=
  mkStreamIO s Pipe.NewPipe None 0 0 false.

(** [streamIO.output]: the cache has one slot, so the pipe is read with a
    one-item buffer; every error is latched in [exception]. *)
Definition output (sio : streamIO) : go (streamIOMsg * option goerr * streamIO) :=
  match sio_exception sio with
  | Some e => Ret (mkMsg [] None, Some e, sio)
  | None =>
      let! r := Pipe.Read 1 (sio_pipe sio) in
      let '(got, err, p') := r in
      let sio1 := mkStreamIO (sio_stream sio) p' (sio_exception sio)
                    (sio_eofFlag sio) (sio_callbackFlag sio)
                    (sio_hasCloseCallback sio) in
      let latch e := mkStreamIO (sio_stream sio) p' (Some e)
                    (sio_eofFlag sio) (sio_callbackFlag sio)
                    (sio_hasCloseCallback sio) in
      match err with
      | Some e => Ret (mkMsg [] None, Some e, latch e)
      | None =>
          match got with
          | [] => Ret (mkMsg [] None, Some EOF, latch EOF)
          | m :: _ =>
              match msg_exception m with
              | Some e => Ret (m, Some e, latch e)
              | None => Ret (m, None, sio1)
              end
          end
      end
  end.

(** ** The transport (transport.go) *)

Definition clientTransport : Z := 1.
Definition serverTransport : Z := 2.
Definition streamCacheSize : nat := 32.
Definition frameChanSize : nat := 32.

(** Observable effects on the transport's resources, in program order. *)
Inductive effect : Type :=
| EvClosePipe | EvCloseChan | EvCloseConn.

Record transport : Type := mkTransport {
  kind : Z;
  sinfo : ServiceInfo;
  streams : gmap Z streamIO;
  scache : list stream;
  spipe : Pipe.Pipe stream;
  wchannel : Chan.Chan Frame;
  lastActive : option Z;
  conn_closed : bool;
  trace : list effect
}.

Definition set_streams (m : gmap Z streamIO) (t : transport) : transport :=
  mkTransport (kind t) (sinfo t) m (scache t) (spipe t) (wchannel t)
    (lastActive t) (conn_closed t) (trace t).
Definition set_scache (c : list stream) (t : transport) : transport :=
  mkTransport (kind t) (sinfo t) (streams t) c (spipe t) (wchannel t)
    (lastActive t) (conn_closed t) (trace t).
Definition set_spipe (p : Pipe.Pipe stream) (t : transport) : transport :=
  mkTransport (kind t) (sinfo t) (streams t) (scache t) p (wchannel t)
    (lastActive t) (conn_closed t) (trace t).
Definition set_wchannel (c : Chan.Chan Frame) (t : transport) : transport :=
  mkTransport (kind t) (sinfo t) (streams t) (scache t) (spipe t) c
    (lastActive t) (conn_closed t) (trace t).
Definition set_lastActive (v : option Z) (t : transport) : transport :=
  mkTransport (kind t) (sinfo t) (streams t) (scache t) (spipe t)
    (wchannel t) v (conn_closed t) (trace t).
Definition set_conn_closed (b : bool) (t : transport) : transport :=
  mkTransport (kind t) (sinfo t) (streams t) (scache t) (spipe t)
    (wchannel t) (lastActive t) b (trace t).
Definition emit (e : effect) (t : transport) : transport :=
  mkTransport (kind t) (sinfo t) (streams t) (scache t) (spipe t)
    (wchannel t) (lastActive t) (conn_closed t) (trace t ++ [e]).

(** [newTransport]: the loops are the step functions below. *)
Definition newTransport (k : Z) (si : ServiceInfo) : transport :=
  mkTransport k si ∅ [] Pipe.NewPipe (Chan.make frameChanSize) None false [].

(** Modelled from the spec: [newStream] of stream.go (not in this source
    tree), "create a new Stream with mode derived from the method
    directory; register a StreamIO". *)
Definition newStream_ (smode : StreamingMode) (smeta : streamFrame)
  (t : transport) : stream * transport :=
  let s := mkStream smeta smode in
  (s, set_streams (<[sid smeta := newStreamIO s]> (streams t)) t).

(** [storeStreamIO] / [loadStreamIO] on the [sync.Map]. *)
Definition loadStreamIO (id : Z) (t : transport) : option streamIO :=
  streams t !! id.

(** [streamIO.input]: a write to the stream's pipe (never failing for the
    [Pipe] of this tree). *)
Definition input (fr : Frame) (sio : streamIO) : streamIO :=
  mkStreamIO (sio_stream sio)
    (Pipe.Write [mkMsg (payload fr) None] (sio_pipe sio))
    (sio_exception sio) (sio_eofFlag sio) (sio_callbackFlag sio)
    (sio_hasCloseCallback sio).

(** One iteration of [loopRead]: the loop either goes on with a new
    transport or returns an error. *)
Inductive loop_res : Type :=
| Continue (t : transport)
| Exit (err : goerr).

Section LoopRead.
(** The stream methods called by the loop live in stream.go; they are
    arbitrary here: each returns its error and the new transport. *)
Variable readMetaFrame : streamIO -> Frame -> transport -> option goerr * transport.
Variable readHeader : streamIO -> Frame -> transport -> option goerr * transport.
Variable readTrailer : streamIO -> Frame -> transport -> option goerr * transport.

Definition then_continue (r : option goerr * transport) : go loop_res :=
  match r with
  | (Some e, _) => Ret (Exit e)
  | (None, t') => Ret (Continue t')
  end.

(** [fr] is the frame [DecodeFrame] returned; [now] is [time.Now()] stored
    in [lastActive] at the top of the iteration. *)
Definition loopRead_step (now : Z) (fr : Frame) (t0 : transport) : go loop_res :=
  let t := set_lastActive (Some now) t0 in
  let id := sid (fr_meta fr) in
  match typ fr with
  | metaFrameType =>
      match loadStreamIO id t with
      | None => Ret (Continue t)
      | Some sio => then_continue (readMetaFrame sio fr t)
      end
  | headerFrameType =>
      if kind t =? serverTransport then
        let! smode := methodStreamingMode (sinfo t) (method (fr_meta fr)) in
        let '(s, t1) := newStream_ smode (fr_meta fr) t in
        Ret (Continue (set_spipe (Pipe.Write [s] (spipe t1)) t1))
      else if kind t =? clientTransport then
        match loadStreamIO id t with
        | None => Ret (Continue t)
        | Some sio => then_continue (readHeader sio fr t)
        end
      else Ret (Continue t)
  | dataFrameType =>
      match loadStreamIO id t with
      | None => Ret (Continue t)
      | Some sio => Ret (Continue (set_streams (<[id := input fr sio]> (streams t)) t))
      end
  | trailerFrameType =>
      match loadStreamIO id t with
      | None => Ret (Continue t)
      | Some sio => then_continue (readTrailer sio fr t)
      end
  end.
End LoopRead.

Section Codec.
(** The external payload codec: [EncodePayload] gives the bytes or an
    error; [DecodePayload] decodes into the caller's target and gives its
    error ([None] is nil). *)
Variable D : Type.
Variable EncodePayload : D -> list Byte.byte + goerr.
Variable DecodePayload : list Byte.byte -> option goerr.

(** [writeFrame(meta, ftype, data)]; [data = None] is a nil [any]. *)
Definition writeFrame (meta : streamFrame) (ftype : frameType)
  (data : option D) (t : transport) : go (option goerr * transport) :=
  let enc := match data with
             | None => inl []
             | Some d => EncodePayload d
             end in
  match enc with
  | inr e => Ret (Some e, t)
  | inl p =>
      let! ch := Chan.send (newFrame meta ftype p) (wchannel t) in
      Ret (None, set_wchannel ch t)
  end.

(** [streamRecv(sid, data)]. *)
Definition streamRecv (id : Z) (t : transport) : go (option goerr * transport) :=
  match loadStreamIO id t with
  | None => Ret (Some EOF, t)
  | Some sio =>
      let! r := output sio in
      let '(f, err, sio') := r in
      let t1 := set_streams (<[id := sio']> (streams t)) t in
      match err with
      | Some e => Ret (Some e, t1)
      | None =>
          let err := DecodePayload (msg_payload f) in
          (* mcache.Free(f.payload); recycleFrame(f) *)
          Ret (None, t1)
      end
  end.
End Codec.

(** [Close()]: [spipe.Close()], [close(wchannel)], [conn.Close()]. The
    netpoll connection's [Close] is recorded as an effect and gives nil. *)
Definition Close (t : transport) : go (option goerr * transport) :=
  let t1 := emit EvClosePipe (set_spipe (Pipe.Close (spipe t)) t) in
  let! ch := Chan.close (wchannel t1) in
  let t2 := emit EvCloseChan (set_wchannel ch t1) in
  let t3 := emit EvCloseConn (set_conn_closed true t2) in
  Ret (None, t3).

(** Time in nanoseconds; [time.Duration] is an int64. *)
Definition Second : Z := 1000000000.
Definition Minute : Z := 60 * Second.
Definition maxDuration : Z := 2 ^ 63 - 1.
Definition minDuration : Z := - 2 ^ 63.

(** [Time.Sub]: the difference, saturated to the int64 range. *)
Definition Sub (now u : Z) : Z :=
  let d := now - u in
  if (minDuration <=? d) && (d <=? maxDuration) then d
  else if now <? u then minDuration else maxDuration.

(** [Available()]: a nil [lastActive] means available. *)
Definition Available (now : Z) (t : transport) : bool :=
  match lastActive t with
  | None => true
  | Some la => Sub now la <? Minute * 10
  end.

(** [atomic.AddInt32]: two's complement wrap-around. *)
Definition wrap_int32 (z : Z) : Z := (z + 2 ^ 31) mod 2 ^ 32 - 2 ^ 31.

Definition AddInt32 (v delta : Z) : Z := wrap_int32 (v + delta).

(** [newStream(ctx, method, header)] on the client side. The package-level
    [clientStreamID] is threaded explicitly: it is the first component of
    the state. *)
Definition newStream (method_ : string) (hdr : list (string * string))
  (st : Z * transport) : go (option stream * option goerr * (Z * transport)) :=
  let '(clientStreamID, t) := st in
  if negb (kind t =? clientTransport) then
    Ret (None, Some (Errorf "transport already be used as other kind"), st)
  else
    let id := AddInt32 clientStreamID 1 in
    let! smode := methodStreamingMode (sinfo t) method_ in
    let smeta := mkStreamFrame id method_ hdr [] in
    let '(s, t1) := newStream_ smode smeta t in
    let! r := writeFrame False (fun d => match d with end) smeta headerFrameType None t1 in
    match r with
    | (Some e, t2) => Ret (None, Some e, (id, t2))
    | (None, t2) => Ret (Some s, None, (id, t2))
    end.

(** The top of the [READ] label: pop [scache[len(scache)-1]]. *)
Definition pop_scache (t : transport) : option (stream * transport) :=
  match last (scache t) with
  | Some s => Some (s, set_scache (removelast (scache t)) t)
  | None => None
  end.

(** [readStream()]: each [goto READ] uses one unit of [fuel]. *)
Fixpoint readStream_loop (fuel : nat) (t : transport)
  : go (option stream * option goerr * transport) :=
  match fuel with
  | O => Diverge
  | S fuel' =>
      match pop_scache t with
      | Some (s, t') => Ret (Some s, None, t')
      | None =>
          let! r := Pipe.Read streamCacheSize (spipe t) in
          let '(got, err, p') := r in
          let t1 := set_spipe p' t in
          match err with
          | Some EOF => Ret (None, Some EOF, t1)
          | Some e => Ret (None, Some e, t1)
          | None =>
              match got with
              | [] => Panic "Assert: N == 0 !"
              | _ => readStream_loop fuel' (set_scache got t1)
              end
          end
      end
  end.

Definition readStream (t : transport) : go (option stream * option goerr * transport) :=
  if negb (kind t =? serverTransport) then
    Ret (None, Some (Errorf "transport already be used as other kind"), t)
  else readStream_loop 2 t.

(** [n] successive [readStream] calls; the streams returned, in order. *)
Fixpoint readStreams (n : nat) (t : transport) : go (list stream * transport) :=
  match n with
  | O => Ret ([], t)
  | S n' =>
      let! r := readStream t in
      match r with
      | (Some s, None, t') =>
          let! r' := readStreams n' t' in
          let '(ss, t'') := r' in Ret (s :: ss, t'')
      | (_, Some e, t') => Ret ([], t')
      | (None, None, t') => Ret ([], t')
      end
  end.

(** ** The close paths of [streamIO], interleaved

    Each close path of connection_buffer.go is split into its atomic
    steps; a goroutine is a program counter and a step runs one atomic step
    of any goroutine. [s.pipe.Close()], [s.pipe.Cancel()] and
    [s.stream.close()] only touch the pipe and the stream; they are
    recorded as flags. *)
Module CloseCallback.

Record state : Type := mkState {
  eofFlag : Z;
  callbackFlag : Z;
  hasCloseCallback : bool;
  pipeClosed : bool;
  pipeCancelled : bool;
  streamClosed : bool;
  (** the number of invocations of [closeCallback] so far *)
  calls : nat
}.

Inductive pc : Type :=
| CloseRecv        (** [closeRecv]: [s.pipe.Close()] *)
| AddEof           (** [closeCallback != nil && AddInt32(&eofFlag, 1) == 2],
                       the body of [closeSend] and the rest of [closeRecv] *)
| ClosePipe        (** [close]: [s.pipe.Close()] *)
| CancelPipe       (** [cancel]: [s.pipe.Cancel()] *)
| StreamClose      (** [s.stream.close()], then [runCloseCallback] *)
| RunCas           (** [closeCallback != nil && CAS(&callbackFlag, 0, 1)] *)
| Invoke           (** [s.closeCallback(s.ctx)] *)
| Done.

Definition with_eof (v : Z) (s : state) : state :=
  mkState v (callbackFlag s) (hasCloseCallback s) (pipeClosed s)
    (pipeCancelled s) (streamClosed s) (calls s).
Definition with_callbackFlag (v : Z) (s : state) : state :=
  mkState (eofFlag s) v (hasCloseCallback s) (pipeClosed s)
    (pipeCancelled s) (streamClosed s) (calls s).
Definition with_pipe (c k : bool) (s : state) : state :=
  mkState (eofFlag s) (callbackFlag s) (hasCloseCallback s) c k
    (streamClosed s) (calls s).
Definition with_streamClosed (s : state) : state :=
  mkState (eofFlag s) (callbackFlag s) (hasCloseCallback s) (pipeClosed s)
    (pipeCancelled s) true (calls s).
Definition with_call (s : state) : state :=
  mkState (eofFlag s) (callbackFlag s) (hasCloseCallback s) (pipeClosed s)
    (pipeCancelled s) (streamClosed s) (S (calls s)).

(** One atomic step of a goroutine at [p]. *)
Definition thread_step (p : pc) (s : state) : pc * state :=
  match p with
  | CloseRecv => (AddEof, with_pipe true (pipeCancelled s) s)
  | AddEof =>
      if hasCloseCallback s then
        let v := AddInt32 (eofFlag s) 1 in
        (if v =? 2 then RunCas else Done, with_eof v s)
      else (Done, s)
  | ClosePipe => (StreamClose, with_pipe true (pipeCancelled s) s)
  | CancelPipe => (StreamClose, with_pipe (pipeClosed s) true s)
  | StreamClose => (RunCas, with_streamClosed s)
  | RunCas =>
      if hasCloseCallback s && (callbackFlag s =? 0)
      then (Invoke, with_callbackFlag 1 s)
      else (Done, s)
  | Invoke => (Done, with_call s)
  | Done => (Done, s)
  end.

(** The scheduler picks any goroutine [i]. *)
Inductive step : state * list pc -> state * list pc -> Prop :=
| step_thread s ths i p :
    ths !! i = Some p ->
    step (s, ths) (snd (thread_step p s), <[i := fst (thread_step p s)]> ths).

Definition steps := rtc step.

(** A concrete schedule: the list of goroutines picked, in order. *)
Fixpoint run (sched : list nat) (c : state * list pc) : option (state * list pc) :=
  match sched with
  | [] => Some c
  | i :: sched' =>
      let '(s, ths) := c in
      match ths !! i with
      | None => None
      | Some p =>
          run sched' (snd (thread_step p s), <[i := fst (thread_step p s)]> ths)
      end
  end.

Definition is_invoke (p : pc) : nat :=
  match p with Invoke => 1 | _ => 0 end.

(** The number of goroutines about to invoke the callback. *)
Fixpoint count_invoke (ths : list pc) : nat :=
  match ths with
  | [] => O
  | p :: ths' => (is_invoke p + count_invoke ths')%nat
  end.

End CloseCallback.

(** ** More of transport.go: the send helpers, [streamClose], [loopWrite] *)

Section Send.
Variable D : Type.
Variable EncodePayload : D -> list Byte.byte + goerr.

(** [streamSendHeader(sid, method, header)]. *)
Definition streamSendHeader (id : Z) (m : string) (h : list (string * string))
  (t : transport) : go (option goerr * transport) :=
  writeFrame D EncodePayload (mkStreamFrame id m h []) headerFrameType None t.

(** [streamSendTrailer(sid, method, trailer)]. *)
Definition streamSendTrailer (id : Z) (m : string) (tr : list (string * string))
  (t : transport) : go (option goerr * transport) :=
  writeFrame D EncodePayload (mkStreamFrame id m [] tr) trailerFrameType None t.

(** [streamSend(sid, method, wheader, res)]: a non-empty header goes out
    first in its own Header frame. *)
Definition streamSend (id : Z) (m : string) (wheader : list (string * string))
  (res : option D) (t : transport) : go (option goerr * transport) :=
  if decide (0 < length wheader)%nat then
    let! r := streamSendHeader id m wheader t in
    match r with
    | (Some e, t') => Ret (Some e, t')
    | (None, t') => writeFrame D EncodePayload (mkStreamFrame id m [] []) dataFrameType res t'
    end
  else writeFrame D EncodePayload (mkStreamFrame id m [] []) dataFrameType res t.
End Send.

(** [streamClose(s)]: removes the stream from the transport. *)
Definition streamClose (s : stream) (t : transport) : option goerr * transport :=
  (None, set_streams (delete (s_sid s) (streams t)) t).

(** What [loopWrite] does to the connection's writer: the bytes of one
    encoded frame, or a [Flush]. *)
Inductive wevent : Type :=
| WBytes (bs : list Byte.byte)
| WFlush.

Section LoopWrite.
(** [EncodeFrame] gives the bytes of a frame or its error; [Flush] gives
    the error of flushing after the events so far. *)
Variable EncodeFrame : Frame -> list Byte.byte + goerr.
Variable Flush : list wevent -> option goerr.

(** [loopWrite()]: a receive from [wchannel] still yields the buffered
    frames of a closed channel, then [ok = false]; the writer flushes when
    the channel is momentarily empty. Each iteration uses one unit of
    [fuel]. Returns the error, the channel and the events. *)
Fixpoint loopWrite (fuel : nat) (ch : Chan.Chan Frame) (out : list wevent)
  : go (option goerr * Chan.Chan Frame * list wevent) :=
  match fuel with
  | O => Diverge
  | S fuel' =>
      match Chan.buf ch with
      | [] => if Chan.chclosed ch then Ret (None, ch, out) else Blocked
      | f :: rest =>
          let ch' := Chan.mkChan rest (Chan.cap ch) (Chan.chclosed ch) in
          match EncodeFrame f with
          | inr e => Ret (Some e, ch', out)
          | inl bs =>
              let out' := out ++ [WBytes bs] in
              if decide (length rest = 0%nat) then
                match Flush out' with
                | Some e => Ret (Some e, ch', out' ++ [WFlush])
                | None => loopWrite fuel' ch' (out' ++ [WFlush])
                end
              else loopWrite fuel' ch' out'
          end
      end
  end.
End LoopWrite.

(** Successive [streamRecv] calls on one sid: the errors, in order. *)
Fixpoint streamRecvs (dec : list Byte.byte -> option goerr) (n : nat) (id : Z)
  (t : transport) : go (list (option goerr) * transport) :=
  match n with
  | O => Ret ([], t)
  | S n' =>
      let! r := streamRecv dec id t in
      let '(e, t1) := r in
      let! r' := streamRecvs dec n' id t1 in
      let '(es, t2) := r' in
      Ret (e :: es, t2)
  end.


(** Iterations of [loopRead] over decoded frames, at the given times. *)
Fixpoint loopRead_steps rm rh rt (frs : list (Z * Frame)) (t : transport) : go loop_res :=
  match frs with
  | [] => Ret (Continue t)
  | (now, fr) :: frs' =>
      let! r := loopRead_step rm rh rt now fr t in
      match r with
      | Continue t1 => loopRead_steps rm rh rt frs' t1
      | Exit e => Ret (Exit e)
      end
  end.

(** ** Contexts and call options (part_000, stream_args.go)

    A [context.Context] built by [context.WithValue] is a chain of
    (key, value) cells; [Value] returns the innermost value stored under an
    equal key. The two keys of this tree are the unexported struct types
    [ctxKeyCallOptions{}] and [StreamCtxKey{}]; other code has keys of its
    own. *)
Module Ctx.

Inductive key : Type :=
| KeyCallOptions
| KeyStreamArgs
| KeyUser (n : nat).

Global Instance key_eq_dec : EqDecision key.
Proof. solve_decision. Defined.

(** Stored values: a [*CallOptions] (a heap location), a [StreamArgs]
    (an object id, [None] for nil), or another value. *)
Inductive value : Type :=
| ValCallOptions (loc : nat)
| ValStreamArgs (args : option nat)
| ValUser (n : nat).

Inductive context : Type :=
| Background
| WithValue (parent : context) (k : key) (v : value).

Fixpoint Value (c : context) (k : key) : option value :=
  match c with
  | Background => None
  | WithValue parent k' v => if decide (k' = k) then Some v else Value parent k
  end.

(** The [*CallOptions] objects: [StreamCloseCallback] of each, the
    callbacks being named by numbers. *)
Record heap : Type := mkHeap {
  next_loc : nat;
  cells : gmap nat (list nat)
}.

Definition empty_heap : heap := mkHeap 0 ∅.

(** [NewCtxWithCallOptions(ctx)]: a fresh [CallOptions], stored in a child
    context. *)
Definition NewCtxWithCallOptions (ctx : context) (h : heap) : context * nat * heap :=
  let l := next_loc h in
  (WithValue ctx KeyCallOptions (ValCallOptions l), l,
   mkHeap (S l) (<[l := []]> (cells h))).

(** [GetCallOptionsFromCtx(ctx)]: nil when absent or not a [*CallOptions]. *)
Definition GetCallOptionsFromCtx (ctx : context) : option nat :=
  match Value ctx KeyCallOptions with
  | Some (ValCallOptions l) => Some l
  | _ => None
  end.

(** [CallOption]: its only constructor in this tree is
    [WithStreamCloseCallback], whose [f] appends the callback. *)
Inductive CallOption : Type :=
| WithStreamCloseCallback (callback : nat).

Definition opt_f (o : CallOption) (cbs : list nat) : list nat :=
  match o with WithStreamCloseCallback cb => cbs ++ [cb] end.

(** [copts.Apply(opts)] on the pointer [copts] ([None] is nil): each
    [opt.f(copts)] writes through the pointer, a nil one faults. *)
Fixpoint Apply (copts : option nat) (opts : list CallOption) (h : heap) : go heap :=
  match opts with
  | [] => Ret h
  | o :: opts' =>
      match copts with
      | None => Panic "invalid memory address or nil pointer dereference"
      | Some l =>
          match cells h !! l with
          | None => Panic "invalid memory address or nil pointer dereference"
          | Some cbs => Apply copts opts' (mkHeap (next_loc h) (<[l := opt_f o cbs]> (cells h)))
          end
      end
  end.

(** [WithStreamArgsContext(ctx, args)] and [GetStreamArgsFromContext(ctx)]. *)
Definition WithStreamArgsContext (ctx : context) (args : option nat) : context :=
  WithValue ctx KeyStreamArgs (ValStreamArgs args).


End Ctx.

(** ** Generic arguments and results (generic_service.go)

    The [inner] codec of [Args] and [Result] is an [interface{}] checked by
    type assertions, first for [error], then for a message reader; the
    reader's [Read] gives the decoded value ([None] is nil) and its
    error. Decoded values are object ids. *)
Module Generic.

Record Inner : Type := mkInner {
  inner_error : option goerr;
  inner_reader : option (string -> bool -> nat -> list Byte.byte -> option nat * option goerr)
}.

Record Args : Type := mkArgs {
  Request : option nat;
  Method : string;
  a_inner : Inner
}.

Record Result : Type := mkResult {
  Success : option nat;
  r_inner : Inner
}.

(** [Args.Read(ctx, method, dataLen, in)]. *)
Definition Args_Read (method_ : string) (dataLen : nat) (input : list Byte.byte)
  (g : Args) : option goerr * Args :=
  match inner_error (a_inner g) with
  | Some e => (Some e, g)
  | None =>
      match inner_reader (a_inner g) with
      | Some rw =>
          let '(req, err) := rw method_ false dataLen input in
          (err, mkArgs req method_ (a_inner g))
      | None => (Some (Errorf "unexpected Args reader type: %T"), g)
      end
  end.

(** [Result.Read(ctx, method, dataLen, in)]. *)
Definition Result_Read (method_ : string) (dataLen : nat) (input : list Byte.byte)
  (r : Result) : option goerr * Result :=
  match inner_error (r_inner r) with
  | Some e => (Some e, r)
  | None =>
      match inner_reader (r_inner r) with
      | Some w =>
          let '(succ, err) := w method_ true dataLen input in
          (err, mkResult succ (r_inner r))
      | None => (Some (Errorf "unexpected Result reader type: %T"), r)
      end
  end.

Definition IsSetSuccess (r : Result) : bool :=
  match Success r with Some _ => true | None => false end.

Definition GetSuccess (r : Result) : option nat :=
  if negb (IsSetSuccess r) then None else Success r.

(** [callHandler]: [GenericCall(ctx, realArg.Method, realArg.Request)]. *)
Definition callHandler (GenericCall : string -> option nat -> option nat * option goerr)
  (arg : Args) (result : Result) : option goerr * Result :=
  let '(success, err) := GenericCall (Method arg) (Request arg) in
  match err with
  | Some e => (Some e, result)
  | None => (None, mkResult success (r_inner result))
  end.

End Generic.

(** ** The read side of [connBuffer] (connection_buffer.go)

    The netpoll reader (a collaborator library) is the list of bytes
    received and not yet consumed; its [Next(n)] and [Skip(n)] fail,
    consuming nothing, when fewer than [n] bytes remain. *)
Module ConnBuffer.

Record connBuffer : Type := mkConnBuffer {
  input : list Byte.byte;
  readSize : nat
}.

Definition set_read (inp : list Byte.byte) (n : nat) (c : connBuffer) : connBuffer :=
  mkConnBuffer inp n.

(** netpoll [Reader.Next(n)]. *)
Definition reader_Next (n : nat) (inp : list Byte.byte)
  : list Byte.byte * option goerr * list Byte.byte :=
  if decide (n <= length inp)%nat then (take n inp, None, drop n inp)
  else ([], Some EOF, inp).

(** [Next(n)]: [readSize += len(p)], also on error. *)
Definition Next (n : nat) (c : connBuffer) : list Byte.byte * option goerr * connBuffer :=
  let '(p, err, inp) := reader_Next n (input c) in
  (p, err, set_read inp (readSize c + length p) c).

(** [ReadBinary(bs)] with [len(bs) = n]. *)
Definition ReadBinary (n : nat) (c : connBuffer) : list Byte.byte * nat * option goerr * connBuffer :=
  let '(buf, err, inp) := reader_Next n (input c) in
  match err with
  | Some e => ([], 0%nat, Some e, set_read inp (readSize c) c)
  | None => (buf, n, None, set_read inp (readSize c + n) c)
  end.

(** [Peek(n)]: no consumption, no count. *)
Definition Peek (n : nat) (c : connBuffer) : list Byte.byte * option goerr :=
  if decide (n <= length (input c))%nat then (take n (input c), None) else ([], Some EOF).

(** [Skip(n)]. *)
Definition Skip (n : nat) (c : connBuffer) : option goerr * connBuffer :=
  if decide (n <= length (input c))%nat
  then (None, set_read (drop n (input c)) (readSize c + n) c)
  else (Some EOF, c).

Definition ReadLen (c : connBuffer) : nat := readSize c.

(** [Release(e)]: the counter restarts; the netpoll reader frees what was
    consumed. *)
Definition Release (c : connBuffer) : connBuffer := set_read (input c) 0 c.

Inductive op : Type :=
| OpNext (n : nat) | OpReadBinary (n : nat) | OpPeek (n : nat) | OpSkip (n : nat).

Definition run_op (o : op) (c : connBuffer) : connBuffer :=
  match o with
  | OpNext n => let '(_, _, c') := Next n c in c'
  | OpReadBinary n => let '(_, _, _, c') := ReadBinary n c in c'
  | OpPeek _ => c
  | OpSkip n => snd (Skip n c)
  end.

Definition run_ops (os : list op) (c : connBuffer) : connBuffer :=
  fold_left (fun c o => run_op o c) os c.

End ConnBuffer.

(** The writer half of [connBuffer]. The netpoll writer is its pending
    byte count (what [Malloc] handed out and [WriteBinary] copied since the
    last [Flush]) and the bytes flushed so far; its [WriteBinary] takes the
    whole slice and its [Malloc] and [Flush] do not fail. *)
Module ConnWriter.

Record connWriter : Type := mkConnWriter {
  pending : nat;
  flushed : nat;
  writeSize : nat
}.




(** [Flush()]: [writeSize = 0], then the netpoll writer's [Flush]. *)
Definition Flush (c : connWriter) : option goerr * connWriter :=
  (None, mkConnWriter 0 (flushed c + pending c) 0).




End ConnWriter.



(** ** Concrete inputs *)

(** A directory with the single method "echo". *)
Definition echo_dir : ServiceInfo :=
  fun m => if String.eqb m "echo" then Some (mkMethodInfo StreamingBidirectional) else None.

Definition srv : transport := newTransport serverTransport echo_dir.
Definition cli : transport := newTransport clientTransport echo_dir.

Definition header_frame (id : Z) (m : string) : Frame :=
  mkFrame (mkStreamFrame id m [] []) headerFrameType [].

(** A stream method of stream.go that succeeds and changes nothing. *)
Definition noop_stream_method (_ : streamIO) (_ : Frame) (t : transport)
  : option goerr * transport := (None, t).

(** A client transport whose stream 1 has one payload [0x01] queued. *)
Definition recv_stream : stream :=
  mkStream (mkStreamFrame 1 "echo" [] []) StreamingBidirectional.
Definition cli_with_payload : transport :=
  set_streams {[1 := mkStreamIO recv_stream
                      (Pipe.mkPipe [mkMsg [Byte.x01] None] false) None 0 0 false]} cli.


(** A client transport whose stream 1 has a closed, drained pipe. *)
Definition cli_closed_stream : transport :=
  set_streams {[1 := mkStreamIO recv_stream (Pipe.mkPipe [] true) None 0 0 false]} cli.

(** A payload codec whose decoder rejects every input. *)
Definition failing_decode (_ : list Byte.byte) : option goerr :=
  Some (CodecErr "invalid payload").

(** An encoder for transports that only send frames without data. *)
Definition no_encode (d : False) : list Byte.byte + goerr := match d with end.

(** A server transport with three inbound streams (sids 1, 2, 3) waiting
    on its accept pipe. *)
Definition accepted_stream (id : Z) : stream :=
  mkStream (mkStreamFrame id "echo" [] []) StreamingBidirectional.
Definition srv_three_pending : transport :=
  set_spipe (Pipe.Write (map accepted_stream [1; 2; 3]) Pipe.NewPipe) srv.

(** A server transport with 33 accepted streams pending in its pipe. *)
Definition srv_many_pending : transport :=
  set_spipe (Pipe.mkPipe (map (fun n => accepted_stream (Z.of_nat n)) (seq 1 33)) false) srv.

(** * Properties *)

(** ** The pipe *)

Section PipeFacts.
Context {Item : Type}.

Lemma get_loop_take_drop (k : nat) (q : list Item) :
  Pipe.get_loop k q = (take k q, drop k q).
Proof.
  revert q; induction k as [|k IH]; intros [|x q]; simpl; try reflexivity.
  rewrite IH. reflexivity.
Qed.

(** Draining a closed pipe whose queue is [q] with buffers of [k > 0]
    items: non-empty batches whose concatenation is [q], then [EOF]. *)
Lemma read_closed_drains (k : nat) (fuel : nat) (q : list Item) :
  (0 < k)%nat -> (length q < fuel)%nat ->
  exists bs, Pipe.read_until_eof fuel k (Pipe.mkPipe q true) = Some bs /\
             concat bs = q /\ Forall (fun b => b <> []) bs.
Proof.
  intros Hk. revert q; induction fuel as [|fuel IH]; intros q Hq; [lia|].
  simpl. unfold Pipe.Read. simpl. rewrite get_loop_take_drop.
  destruct q as [|x q'].
  - rewrite take_nil, drop_nil. exists []. repeat split; constructor.
  - destruct k as [|k']; [lia|]. simpl.
    destruct (IH (drop k' q')) as (bs & Hbs & Hcat & Hne).
    { rewrite length_drop. simpl in Hq. lia. }
    rewrite Hbs. exists ((x :: take k' q') :: bs). split; [reflexivity|]. split.
    + simpl. rewrite Hcat, take_drop. reflexivity.
    + constructor; [discriminate | exact Hne].
Qed.
End PipeFacts.

Lemma write_each_queue {Item : Type} (xs : list Item) (p : Pipe.Pipe Item) :
  Pipe.write_each xs p = Pipe.mkPipe (Pipe.queue p ++ xs) (Pipe.closed p).
Proof.
  unfold Pipe.write_each. revert p; induction xs as [|x xs IH]; intros p; simpl.
  - destruct p; simpl. rewrite app_nil_r. reflexivity.
  - rewrite IH. simpl. rewrite <- app_assoc. reflexivity.
Qed.

(** C6: with a single reader, writes [x_1 … x_n] followed by [Close] are
    read back by successive [Read] calls (any buffer of [k ≥ 1] items) as
    non-empty batches whose concatenation is [x_1 … x_n], in write order,
    after which [Read] returns [(0, EOF)]; nothing is dropped or
    reordered. *)
Theorem pipe_writes_then_close_read_in_order {Item : Type} (k : nat) (xs : list Item) :
  (0 < k)%nat ->
  exists bs,
    Pipe.read_until_eof (S (length xs)) k
      (Pipe.Close (Pipe.write_each xs Pipe.NewPipe)) = Some bs /\
    concat bs = xs /\ Forall (fun b => b <> []) bs.
Proof.
  intros Hk. rewrite write_each_queue.
  apply (read_closed_drains k (S (length xs)) xs); [exact Hk | lia].
Qed.

Lemma pipe_writes_then_close_read_in_order_witness :
  (0 < 2)%nat /\
  exists bs,
    Pipe.read_until_eof 4 2 (Pipe.Close (Pipe.write_each [1; 2; 3] Pipe.NewPipe)) = Some bs /\
    concat bs = [1; 2; 3] /\ Forall (fun b => b <> []) bs.
Proof.
  split; [lia|]. apply (pipe_writes_then_close_read_in_order 2 [1; 2; 3]). lia.
Defined.

(** C7 (counterexample): a [Write] after [Close] is not refused; the item
    is enqueued and the next [Read] returns it. *)
Lemma pipe_write_on_closed_enqueues :
  Pipe.queue (Pipe.Write [7] (Pipe.Close (@Pipe.NewPipe Z))) = [7] /\
  Pipe.Read 1 (Pipe.Write [7] (Pipe.Close (@Pipe.NewPipe Z)))
    = Ret ([7], None, Pipe.mkPipe [] true).
Proof. split; reflexivity. Qed.

(** C7 (amended): [Write] never fails and has no error result: it appends
    its items, in order, whether or not the pipe is closed, and leaves the
    closed flag as it was; on a closed pipe, items written after [Close]
    are still returned by [Read] (buffer of [k ≥ 1]) before [EOF]. *)
Theorem pipe_write_appends_even_when_closed {Item : Type}
  (p : Pipe.Pipe Item) (items : list Item) (k : nat) :
  (0 < k)%nat ->
  Pipe.queue (Pipe.Write items p) = Pipe.queue p ++ items /\
  Pipe.closed (Pipe.Write items p) = Pipe.closed p /\
  (Pipe.closed p = true ->
   exists bs,
     Pipe.read_until_eof (S (length (Pipe.queue p ++ items))) k (Pipe.Write items p)
       = Some bs /\ concat bs = Pipe.queue p ++ items).
Proof.
  intros Hk. split; [reflexivity|]. split; [reflexivity|].
  intros Hc. destruct p as [q c]; simpl in *; subst c. unfold Pipe.Write; simpl.
  destruct (read_closed_drains k (S (length (q ++ items))) (q ++ items)) as (bs & H1 & H2 & _);
    [exact Hk | lia |].
  exists bs. split; assumption.
Qed.

Lemma pipe_write_appends_even_when_closed_witness :
  (0 < 1)%nat /\
  Pipe.queue (Pipe.Write [7] (Pipe.Close (@Pipe.NewPipe Z))) = [] ++ [7] /\
  Pipe.closed (Pipe.Write [7] (Pipe.Close (@Pipe.NewPipe Z))) = true /\
  (true = true ->
   exists bs,
     Pipe.read_until_eof (S (length ([] ++ [7]))) 1
       (Pipe.Write [7] (Pipe.Close (@Pipe.NewPipe Z))) = Some bs /\
     concat bs = [] ++ [7]).
Proof.
  split; [lia|]. apply (pipe_write_appends_even_when_closed (Pipe.Close Pipe.NewPipe) [7] 1). lia.
Defined.

(** ** The transport *)

(** C1 (counterexample): on the server, the Header frame of a method
    missing from the directory does not make the handler emit a Trailer:
    the call on the nil directory entry faults, and no frame is written. *)
Lemma unknown_method_header_emits_no_trailer :
  loopRead_step noop_stream_method noop_stream_method noop_stream_method 0
    (header_frame 1 "nope") srv
    = Panic "invalid memory address or nil pointer dereference" /\
  ~ (exists t', loopRead_step noop_stream_method noop_stream_method noop_stream_method 0
                  (header_frame 1 "nope") srv = Ret (Continue t') /\
                exists f, In f (Chan.buf (wchannel t')) /\ typ f = trailerFrameType).
Proof.
  split; [reflexivity|]. intros (t' & H & _). vm_compute in H. discriminate H.
Qed.

(** C1 (amended): the server's Header frame handler has no unknown-method
    path and never writes a frame: for a method in the directory it
    registers the new stream and enqueues it on the accept pipe, with the
    write channel unchanged; for a method missing from the directory the
    [StreamingMode()] call on the nil entry is a runtime panic, so nothing
    is enqueued. *)
Theorem server_header_frame_has_no_unknown_method_path rm rh rt now fr t :
  kind t = serverTransport -> typ fr = headerFrameType ->
  match sinfo t (method (fr_meta fr)) with
  | None => exists msg, loopRead_step rm rh rt now fr t = Panic msg
  | Some mi =>
      exists t', loopRead_step rm rh rt now fr t = Ret (Continue t') /\
        wchannel t' = wchannel t /\
        Pipe.queue (spipe t') = Pipe.queue (spipe t) ++ [mkStream (fr_meta fr) (StreamingMode_of mi)] /\
        streams t' !! sid (fr_meta fr) = Some (newStreamIO (mkStream (fr_meta fr) (StreamingMode_of mi)))
  end.
Proof.
  intros Hk Ht. unfold loopRead_step. rewrite Ht. simpl. rewrite Hk. simpl.
  unfold methodStreamingMode. destruct (sinfo t (method (fr_meta fr))) as [mi|]; simpl.
  - eexists. split; [reflexivity|]. simpl. split; [reflexivity|]. split; [reflexivity|].
    apply lookup_insert_eq.
  - eexists. reflexivity.
Qed.

Lemma server_header_frame_has_no_unknown_method_path_witness :
  kind srv = serverTransport /\ typ (header_frame 1 "echo") = headerFrameType /\
  exists t', loopRead_step noop_stream_method noop_stream_method noop_stream_method 0
               (header_frame 1 "echo") srv = Ret (Continue t') /\
    wchannel t' = wchannel srv /\
    Pipe.queue (spipe t') = Pipe.queue (spipe srv) ++
      [mkStream (fr_meta (header_frame 1 "echo")) StreamingBidirectional] /\
    streams t' !! sid (fr_meta (header_frame 1 "echo"))
      = Some (newStreamIO (mkStream (fr_meta (header_frame 1 "echo")) StreamingBidirectional)).
Proof.
  split; [reflexivity|]. split; [reflexivity|].
  exact (server_header_frame_has_no_unknown_method_path noop_stream_method
           noop_stream_method noop_stream_method 0 (header_frame 1 "echo") srv
           eq_refl eq_refl).
Defined.

(** C2: when the pipe of a registered stream yields a payload and the
    codec fails to decode it, [streamRecv] assigns the decode error to
    [err] and then returns nil: the error never reaches the caller. The
    transport (connection, write channel, accept pipe) is untouched. *)
Theorem streamRecv_drops_decode_error dec t id sio p rest e :
  loadStreamIO id t = Some sio -> sio_exception sio = None ->
  Pipe.queue (sio_pipe sio) = mkMsg p None :: rest -> dec p = Some e ->
  exists t', streamRecv dec id t = Ret (None, t') /\
    conn_closed t' = conn_closed t /\ wchannel t' = wchannel t /\
    spipe t' = spipe t.
Proof.
  intros Hl He Hq Hd. unfold streamRecv. rewrite Hl. unfold output. rewrite He.
  unfold Pipe.Read. rewrite Hq. simpl.
  eexists. split; [reflexivity|]. repeat split.
Qed.

Lemma streamRecv_drops_decode_error_witness :
  failing_decode [Byte.x01] = Some (CodecErr "invalid payload") /\
  exists t', streamRecv failing_decode 1 cli_with_payload = Ret (None, t') /\
    conn_closed t' = conn_closed cli_with_payload /\
    wchannel t' = wchannel cli_with_payload /\ spipe t' = spipe cli_with_payload.
Proof.
  split; [reflexivity|].
  exact (streamRecv_drops_decode_error failing_decode cli_with_payload 1
           (mkStreamIO recv_stream (Pipe.mkPipe [mkMsg [Byte.x01] None] false) None 0 0 false)
           [Byte.x01] [] (CodecErr "invalid payload") eq_refl eq_refl eq_refl eq_refl).
Defined.

Lemma Close_ok t r t1 :
  Close t = Ret (r, t1) ->
  r = None /\ Chan.chclosed (wchannel t) = false /\
  Pipe.closed (spipe t1) = true /\ Chan.chclosed (wchannel t1) = true /\
  conn_closed t1 = true /\ trace t1 = trace t ++ [EvClosePipe; EvCloseChan; EvCloseConn].
Proof.
  unfold Close, Chan.close. simpl.
  destruct (Chan.chclosed (wchannel t)) eqn:Ec; simpl; [discriminate|].
  intros H. inversion H; subst. simpl. rewrite <- !app_assoc. repeat split.
Qed.

(** C3 (counterexample): after [Close], [writeFrame] of a Header frame
    does not return a Closed error: the send on the closed channel
    panics. *)
Lemma writeFrame_after_Close_is_not_an_error :
  go_bind (Close srv)
    (fun r => writeFrame False no_encode (mkStreamFrame 1 "echo" [] []) headerFrameType None (snd r))
  = Panic "send on closed channel".
Proof. reflexivity. Qed.

(** C3 (amended): [writeFrame] has no closed check and no Closed error:
    after [Close] has closed the write channel, a call whose payload (if
    any) encodes sends on the closed channel and panics; only a payload
    encoding error is returned, before the send. *)
Theorem writeFrame_after_Close_panics (D : Type) enc meta ftype (data : option D) t r t1 :
  Close t = Ret (r, t1) ->
  match (match data with None => inl [] | Some d => enc d end) with
  | inl _ => writeFrame D enc meta ftype data t1 = Panic "send on closed channel"
  | inr e => writeFrame D enc meta ftype data t1 = Ret (Some e, t1)
  end.
Proof.
  intros HC. destruct (Close_ok t r t1 HC) as (_ & _ & _ & Hch & _).
  unfold writeFrame, Chan.send.
  destruct (match data with None => inl [] | Some d => enc d end); simpl.
  - rewrite Hch. reflexivity.
  - reflexivity.
Qed.

Lemma writeFrame_after_Close_panics_witness :
  exists t1, Close srv = Ret (None, t1) /\
    writeFrame False no_encode (mkStreamFrame 1 "echo" [] []) headerFrameType None t1
      = Panic "send on closed channel".
Proof.
  eexists. split; [reflexivity|].
  exact (writeFrame_after_Close_panics False no_encode (mkStreamFrame 1 "echo" [] [])
           headerFrameType None srv None _ eq_refl).
Defined.

(** C4 (counterexample): a second [Close] on the same transport panics
    when it closes the already closed write channel. *)
Lemma Close_twice_panics :
  exists t1, Close srv = Ret (None, t1) /\ Close t1 = Panic "close of closed channel".
Proof. eexists. split; reflexivity. Qed.

(** C4 (amended): [Close] on an open transport closes the accept pipe,
    then the write channel, then the connection, and returns nil; it is
    not idempotent: a second [Close] panics at [close(wchannel)]. *)
Theorem Close_once_in_order_then_panics t :
  Chan.chclosed (wchannel t) = false ->
  exists t1, Close t = Ret (None, t1) /\
    trace t1 = trace t ++ [EvClosePipe; EvCloseChan; EvCloseConn] /\
    Pipe.closed (spipe t1) = true /\ Chan.chclosed (wchannel t1) = true /\
    conn_closed t1 = true /\ Close t1 = Panic "close of closed channel".
Proof.
  intros Hc.
  assert (HC : Close t = Ret (None, emit EvCloseConn (set_conn_closed true
                 (emit EvCloseChan (set_wchannel (Chan.mkChan (Chan.buf (wchannel t))
                    (Chan.cap (wchannel t)) true)
                    (emit EvClosePipe (set_spipe (Pipe.Close (spipe t)) t))))))).
  { unfold Close, Chan.close. simpl. rewrite Hc. reflexivity. }
  eexists. split; [exact HC|].
  destruct (Close_ok _ _ _ HC) as (_ & _ & H1 & H2 & H3 & H4).
  repeat split; assumption || reflexivity.
Qed.

Lemma Close_once_in_order_then_panics_witness :
  Chan.chclosed (wchannel srv) = false /\
  exists t1, Close srv = Ret (None, t1) /\
    trace t1 = trace srv ++ [EvClosePipe; EvCloseChan; EvCloseConn] /\
    Pipe.closed (spipe t1) = true /\ Chan.chclosed (wchannel t1) = true /\
    conn_closed t1 = true /\ Close t1 = Panic "close of closed channel".
Proof. split; [reflexivity|]. exact (Close_once_in_order_then_panics srv eq_refl). Defined.

(** C5 (counterexample): with the process-wide counter at 2147483647,
    [newStream] does not fail with StreamIdExhausted: it returns a stream
    whose sid wrapped to -2147483648. *)
Lemma newStream_after_overflow_returns_negative_sid :
  exists s st, newStream "echo" [] (2147483647, cli) = Ret (Some s, None, st) /\
    s_sid s = -2147483648.
Proof. eexists _, _. split; reflexivity. Qed.

(** C5 (amended): on a client transport, [newStream] increments the
    process-wide int32 counter with [atomic.AddInt32], which wraps around,
    and takes the new value as the sid without any overflow check: the sid
    is the previous counter value plus one, except that after 2147483647 it
    is -2147483648; the stream is returned with that sid (no
    StreamIdExhausted error exists). *)
Theorem newStream_sid_wraps c method_ hdr t mi :
  kind t = clientTransport -> sinfo t method_ = Some mi ->
  Chan.chclosed (wchannel t) = false ->
  (length (Chan.buf (wchannel t)) < Chan.cap (wchannel t))%nat ->
  - 2 ^ 31 <= c <= 2 ^ 31 - 1 ->
  exists s t', newStream method_ hdr (c, t) = Ret (Some s, None, (s_sid s, t')) /\
    s_sid s = (if c =? 2 ^ 31 - 1 then - 2 ^ 31 else c + 1) /\
    s_mode s = StreamingMode_of mi.
Proof.
  intros Hk Hm Hc Hlen Hr. unfold newStream. rewrite Hk. simpl.
  unfold methodStreamingMode. rewrite Hm. simpl.
  unfold writeFrame, Chan.send. simpl. rewrite Hc.
  destruct (decide _) as [_|Hn]; [|contradiction]. cbn.
  exists (mkStream (mkStreamFrame (AddInt32 c 1) method_ hdr []) (StreamingMode_of mi)).
  eexists. split; [reflexivity|]. simpl. split; [|reflexivity].
  unfold AddInt32, wrap_int32.
  destruct (Z.eqb_spec c (2 ^ 31 - 1)) as [->|Hne]; [reflexivity|].
  change (2 ^ 31) with 2147483648 in *. change (2 ^ 32) with 4294967296.
  unfold s_sid; simpl. rewrite Z.mod_small; lia.
Qed.

Lemma newStream_sid_wraps_witness :
  exists s t', newStream "echo" [] (2147483647, cli) = Ret (Some s, None, (s_sid s, t')) /\
    s_sid s = (if 2147483647 =? 2 ^ 31 - 1 then - 2 ^ 31 else 2147483647 + 1) /\
    s_mode s = StreamingBidirectional.
Proof.
  apply (newStream_sid_wraps 2147483647 "echo" [] cli (mkMethodInfo StreamingBidirectional));
    [reflexivity | reflexivity | reflexivity | vm_compute; lia | lia].
Defined.

(** C9: [Available()] is true exactly when no activity was recorded or
    the time elapsed since [lastActive] is below ten minutes. *)
Theorem Available_iff_recent now t :
  Available now t = true <->
  match lastActive t with
  | None => True
  | Some la => now - la < 10 * Minute
  end.
Proof.
  unfold Available. destruct (lastActive t) as [la|]; [|tauto].
  rewrite Z.ltb_lt. unfold Sub, minDuration, maxDuration, Minute, Second.
  destruct ((- 2 ^ 63 <=? now - la) && (now - la <=? 2 ^ 63 - 1)) eqn:E.
  - lia.
  - apply andb_false_iff in E. rewrite !Z.leb_gt in E.
    destruct (Z.ltb_spec now la); lia.
Qed.

(** ** The server's accept cache *)

Lemma readStreams_pop_cache cache t :
  kind t = serverTransport -> scache t = cache ->
  exists t', readStreams (length cache) t = Ret (rev cache, t') /\
    scache t' = [] /\ spipe t' = spipe t.
Proof.
  revert t. induction cache as [|x l IH] using rev_ind; intros t Hk Hc.
  - exists t. simpl. auto.
  - rewrite length_app. simpl. rewrite Nat.add_1_r. cbn [readStreams].
    unfold readStream. rewrite Hk. cbn [Z.eqb serverTransport negb].
    cbn [readStream_loop]. unfold pop_scache. rewrite Hc, last_snoc, removelast_last.
    cbn -[readStreams set_scache].
    destruct (IH (set_scache l t)) as (t' & H1 & H2 & H3); [exact Hk | reflexivity |].
    rewrite H1. cbn [go_bind]. exists t'. rewrite rev_app_distr. simpl.
    split; [reflexivity|]. split; [exact H2|]. rewrite H3. reflexivity.
Qed.

Lemma readStream_fills_cache t xs :
  kind t = serverTransport -> scache t = [] -> Pipe.queue (spipe t) = xs ->
  xs <> [] -> (length xs <= streamCacheSize)%nat ->
  readStream t =
  readStream (set_scache xs (set_spipe (Pipe.mkPipe [] (Pipe.closed (spipe t))) t)).
Proof.
  intros Hk Hc Hq Hne Hl. unfold readStream. cbn [kind set_scache set_spipe].
  rewrite Hk. cbn [Z.eqb serverTransport negb readStream_loop].
  unfold pop_scache at 1. rewrite Hc. cbn [last].
  unfold Pipe.Read. rewrite Hq, get_loop_take_drop, take_ge, drop_ge by lia.
  destruct xs as [|x xs']; [congruence|]. cbn [go_bind].
  unfold pop_scache. cbn [scache set_scache].
  destruct (last (x :: xs')) eqn:E; [reflexivity|].
  apply last_None in E. discriminate E.
Qed.

(** C10: when [k] streams, [2 ≤ k ≤ 32], wait on the accept pipe and the
    cache is empty, the first [readStream] drains all of them into the
    cache in one [Read], and [k] successive calls return them in reverse
    arrival order, which differs from the arrival order when the streams
    are distinct. *)
Theorem readStream_returns_batch_in_reverse t xs :
  kind t = serverTransport -> scache t = [] -> Pipe.queue (spipe t) = xs ->
  (2 <= length xs <= streamCacheSize)%nat ->
  (exists t', readStreams (length xs) t = Ret (rev xs, t') /\
     Pipe.queue (spipe t') = [] /\ scache t' = []) /\
  (NoDup xs -> rev xs <> xs).
Proof.
  intros Hk Hc Hq Hl. split.
  - set (t1 := set_scache xs (set_spipe (Pipe.mkPipe [] (Pipe.closed (spipe t))) t)).
    assert (Hne : xs <> []) by (intros ->; simpl in Hl; lia).
    assert (E : readStreams (length xs) t = readStreams (length xs) t1).
    { destruct xs as [|x xs']; [congruence|]. cbn [length readStreams].
      rewrite (readStream_fills_cache t (x :: xs')); auto; lia. }
    rewrite E. destruct (readStreams_pop_cache xs t1) as (t' & H1 & H2 & H3);
      [exact Hk | reflexivity |].
    exists t'. split; [exact H1|]. split; [rewrite H3; reflexivity | exact H2].
  - intros Hnd Heq. destruct xs as [|a ys]; [simpl in Hl; lia|].
    simpl in Heq. destruct (rev ys) as [|b r] eqn:Er.
    + apply (f_equal (@rev stream)) in Er. rewrite rev_involutive in Er. subst ys.
      simpl in Hl. lia.
    + simpl in Heq. injection Heq as Hba _. subst b.
      inversion Hnd as [|? ? Hnot _]; subst. apply Hnot.
      apply list_elem_of_In, in_rev. rewrite Er. left. reflexivity.
Qed.

Lemma readStream_returns_batch_in_reverse_witness :
  (exists t', readStreams 3 srv_three_pending
                = Ret (map accepted_stream [3; 2; 1], t') /\
     Pipe.queue (spipe t') = [] /\ scache t' = []) /\
  (NoDup (map accepted_stream [1; 2; 3]) ->
   rev (map accepted_stream [1; 2; 3]) <> map accepted_stream [1; 2; 3]).
Proof.
  exact (readStream_returns_batch_in_reverse srv_three_pending
           (map accepted_stream [1; 2; 3]) eq_refl eq_refl eq_refl
           ltac:(vm_compute; lia)).
Defined.

(** ** The close callback *)

Module CloseCallbackFacts.
Import CloseCallback.

Definition inv (c : state * list pc) : Prop :=
  let '(s, ths) := c in
  (callbackFlag s = 0 /\ calls s = 0%nat /\ count_invoke ths = 0%nat) \/
  (callbackFlag s = 1 /\ (calls s + count_invoke ths = 1)%nat).

Lemma count_invoke_insert (ths : list pc) i p q :
  ths !! i = Some p ->
  (count_invoke (<[i := q]> ths) + is_invoke p = count_invoke ths + is_invoke q)%nat.
Proof.
  revert i; induction ths as [|p' ths IH]; intros [|i] Hi; simpl in *; try discriminate.
  - injection Hi as ->. lia.
  - specialize (IH i Hi). lia.
Qed.

Lemma inv_step c c' : step c c' -> inv c -> inv c'.
Proof.
  intros [s ths i p Hi] Hinv.
  pose proof (count_invoke_insert ths i p (fst (thread_step p s)) Hi) as Hc.
  destruct p; simpl in *.
  - (* CloseRecv *) lia.
  - (* AddEof *)
    destruct (hasCloseCallback s); simpl in *; [|lia].
    destruct (AddInt32 (eofFlag s) 1 =? 2); simpl in *; lia.
  - (* ClosePipe *) lia.
  - (* CancelPipe *) lia.
  - (* StreamClose *) lia.
  - (* RunCas *)
    destruct (hasCloseCallback s && (callbackFlag s =? 0)) eqn:E; simpl in *; [|lia].
    apply andb_true_iff in E as [_ E]. apply Z.eqb_eq in E. lia.
  - (* Invoke *) lia.
  - (* Done *) lia.
Qed.

Lemma inv_steps c c' : steps c c' -> inv c -> inv c'.
Proof. induction 1; eauto using inv_step. Qed.

Lemma run_steps sched c c' : run sched c = Some c' -> steps c c'.
Proof.
  revert c; induction sched as [|i sched IH]; intros [s ths] H; simpl in H.
  - injection H as <-. apply rtc_refl.
  - destruct (ths !! i) as [p|] eqn:Hi; [|discriminate].
    eapply rtc_l; [apply step_thread, Hi | exact (IH _ H)].
Qed.

End CloseCallbackFacts.

(** C8: for any number of goroutines running the close paths
    ([closeRecv], [closeSend], [close], [cancel]) of one [streamIO], in any
    interleaving of their atomic steps, starting from a fresh callback flag
    with no invocation under way, the close callback has been invoked at
    most once. *)
Theorem close_callback_at_most_once (s0 : CloseCallback.state) ths0 s ths :
  CloseCallback.callbackFlag s0 = 0 -> CloseCallback.calls s0 = 0%nat ->
  CloseCallback.count_invoke ths0 = 0%nat ->
  CloseCallback.steps (s0, ths0) (s, ths) ->
  (CloseCallback.calls s <= 1)%nat.
Proof.
  intros H1 H2 H3 Hs.
  assert (Hi : CloseCallbackFacts.inv (s, ths)).
  { apply (CloseCallbackFacts.inv_steps _ _ Hs). left. auto. }
  simpl in Hi. lia.
Qed.

(** Goroutines running [closeRecv], [closeSend] and [cancel] with a
    callback set; the schedule makes [closeSend] and [cancel] both reach
    [runCloseCallback]. *)
Lemma close_callback_at_most_once_witness :
  exists s ths,
    CloseCallback.run [0; 0; 1; 2; 2; 2; 1; 2]%nat
      (CloseCallback.mkState 0 0 true false false false 0,
       [CloseCallback.CloseRecv; CloseCallback.AddEof; CloseCallback.CancelPipe])
      = Some (s, ths) /\
    CloseCallback.calls s = 1%nat /\ (CloseCallback.calls s <= 1)%nat.
Proof.
  eexists _, _. split; [reflexivity|]. split; [reflexivity|].
  eapply (close_callback_at_most_once
           (CloseCallback.mkState 0 0 true false false false 0)
           [CloseCallback.CloseRecv; CloseCallback.AddEof; CloseCallback.CancelPipe]);
    [reflexivity | reflexivity | reflexivity |].
  apply (CloseCallbackFacts.run_steps [0; 0; 1; 2; 2; 2; 1; 2]%nat). reflexivity.
Defined.

(** * Further properties of the code *)

(** ** Reader loop and receive path *)

Definition data_frame (id : Z) (m : string) (p : list Byte.byte) : Frame :=
  mkFrame (mkStreamFrame id m [] []) dataFrameType p.

(** X1: a Meta, Data or Trailer frame, or a Header frame on a client
    transport, whose sid has no registered stream is dropped: the loop goes
    on and only [lastActive] changes. *)
Theorem loopRead_drops_unknown_sid rm rh rt now fr t :
  loadStreamIO (sid (fr_meta fr)) t = None ->
  (typ fr <> headerFrameType \/ kind t <> serverTransport) ->
  loopRead_step rm rh rt now fr t = Ret (Continue (set_lastActive (Some now) t)).
Proof.
  intros Hl Hk. unfold loopRead_step, loadStreamIO in *. simpl.
  destruct (typ fr); simpl; try (rewrite Hl; reflexivity).
  destruct Hk as [Hk|Hk]; [congruence|].
  destruct (Z.eqb_spec (kind t) serverTransport) as [E|_]; [contradiction|].
  destruct (kind t =? clientTransport); [rewrite Hl|]; reflexivity.
Qed.

Lemma loopRead_drops_unknown_sid_witness :
  loadStreamIO 5 cli = None /\
  (typ (data_frame 5 "echo" [Byte.x01]) <> headerFrameType \/ kind cli <> serverTransport) /\
  loopRead_step noop_stream_method noop_stream_method noop_stream_method 7
    (data_frame 5 "echo" [Byte.x01]) cli = Ret (Continue (set_lastActive (Some 7) cli)).
Proof.
  assert (H1 : loadStreamIO 5 cli = None) by (vm_compute; reflexivity).
  assert (H2 : typ (data_frame 5 "echo" [Byte.x01]) <> headerFrameType \/ kind cli <> serverTransport)
    by (left; discriminate).
  split; [exact H1|]. split; [exact H2|].
  exact (loopRead_drops_unknown_sid noop_stream_method noop_stream_method noop_stream_method
           7 (data_frame 5 "echo" [Byte.x01]) cli H1 H2).
Defined.

Lemma data_steps_append rm rh rt now id m ps t sio :
  loadStreamIO id t = Some sio ->
  exists t' sio',
    loopRead_steps rm rh rt (map (fun p => (now, data_frame id m p)) ps) t = Ret (Continue t') /\
    loadStreamIO id t' = Some sio' /\
    Pipe.queue (sio_pipe sio') = Pipe.queue (sio_pipe sio) ++ map (fun p => mkMsg p None) ps /\
    Pipe.closed (sio_pipe sio') = Pipe.closed (sio_pipe sio) /\
    sio_exception sio' = sio_exception sio /\
    (forall j, j <> id -> streams t' !! j = streams t !! j).
Proof.
  revert t sio. induction ps as [|p ps IH]; intros t sio Hl.
  - exists t, sio. simpl. rewrite app_nil_r. repeat split; auto.
  - cbn [map loopRead_steps]. unfold loopRead_step at 1. cbn [typ data_frame fr_meta sid].
    unfold loadStreamIO at 1. cbn [set_lastActive streams]. unfold loadStreamIO in Hl. rewrite Hl.
    cbn [go_bind].
    destruct (IH (set_streams (<[id := input (data_frame id m p) sio]> (streams t))
                    (set_lastActive (Some now) t)) (input (data_frame id m p) sio))
      as (t' & sio' & H1 & H2 & H3 & H4 & H5 & H6).
    { unfold loadStreamIO. simpl. apply lookup_insert_eq. }
    exists t', sio'. split; [exact H1|]. split; [exact H2|].
    rewrite H3. simpl. rewrite <- app_assoc. split; [reflexivity|].
    split; [exact H4|]. split; [exact H5|].
    intros j Hj. rewrite H6 by exact Hj. simpl. apply lookup_insert_ne. congruence.
Qed.





Lemma streamRecvs_latched dec n id t sio e :
  loadStreamIO id t = Some sio -> sio_exception sio = Some e ->
  exists t', streamRecvs dec n id t = Ret (repeat (Some e) n, t') /\ loadStreamIO id t' = Some sio.
Proof.
  revert t. induction n as [|n IH]; intros t Hl He.
  - exists t. auto.
  - cbn [streamRecvs]. unfold streamRecv at 1. rewrite Hl. unfold output. rewrite He.
    cbn [go_bind].
    destruct (IH (set_streams (<[id := sio]> (streams t)) t)) as (t' & H1 & H2); auto.
    { unfold loadStreamIO. simpl. apply lookup_insert_eq. }
    rewrite H1. cbn. exists t'. auto.
Qed.

(** X3: a receive on a stream whose pipe is closed and drained returns
    [EOF], and the error is latched: whatever Data frames for that stream
    the reader loop delivers afterwards, every later receive returns [EOF]
    again and none of their payloads is read. *)
Theorem streamRecv_EOF_is_sticky dec rm rh rt id t sio :
  loadStreamIO id t = Some sio -> sio_exception sio = None ->
  Pipe.queue (sio_pipe sio) = [] -> Pipe.closed (sio_pipe sio) = true ->
  exists t1, streamRecv dec id t = Ret (Some EOF, t1) /\
    forall now m ps n, exists t2 t3,
      loopRead_steps rm rh rt (map (fun p => (now, data_frame id m p)) ps) t1 = Ret (Continue t2) /\
      streamRecvs dec n id t2 = Ret (repeat (Some EOF) n, t3).
Proof.
  intros Hl He Hq Hc.
  set (sio1 := mkStreamIO (sio_stream sio) (sio_pipe sio) (Some EOF)
                 (sio_eofFlag sio) (sio_callbackFlag sio) (sio_hasCloseCallback sio)).
  exists (set_streams (<[id := sio1]> (streams t)) t). split.
  - unfold streamRecv. rewrite Hl. unfold output. rewrite He. unfold Pipe.Read. rewrite Hq.
    cbn. rewrite Hc. cbn. subst sio1. destruct (sio_pipe sio) as [q c]. simpl in *. subst. reflexivity.
  - intros now m ps n.
    destruct (data_steps_append rm rh rt now id m ps (set_streams (<[id := sio1]> (streams t)) t) sio1)
      as (t2 & sio2 & H1 & H2 & _ & _ & H5 & _).
    { unfold loadStreamIO. simpl. apply lookup_insert_eq. }
    destruct (streamRecvs_latched dec n id t2 sio2 EOF H2 H5) as (t3 & H6 & _).
    exists t2, t3. auto.
Qed.

Lemma streamRecv_EOF_is_sticky_witness :
  exists t1, streamRecv failing_decode 1 cli_closed_stream = Ret (Some EOF, t1) /\
    forall now m ps n, exists t2 t3,
      loopRead_steps noop_stream_method noop_stream_method noop_stream_method
        (map (fun p => (now, data_frame 1 m p)) ps) t1 = Ret (Continue t2) /\
      streamRecvs failing_decode n 1 t2 = Ret (repeat (Some EOF) n, t3).
Proof.
  apply (streamRecv_EOF_is_sticky failing_decode noop_stream_method noop_stream_method
           noop_stream_method 1 cli_closed_stream
           (mkStreamIO recv_stream (Pipe.mkPipe [] true) None 0 0 false));
    vm_compute; reflexivity.
Defined.

(** X4: [streamClose] only unregisters the stream: it returns nil, a later
    receive on its sid returns [EOF], a Data frame for it is dropped by the
    reader loop, and the entries of all other sids are untouched. *)
Theorem streamClose_unregisters dec rm rh rt now m p s t :
  fst (streamClose s t) = None /\
  streamRecv dec (s_sid s) (snd (streamClose s t)) = Ret (Some EOF, snd (streamClose s t)) /\
  loopRead_step rm rh rt now (data_frame (s_sid s) m p) (snd (streamClose s t)) =
    Ret (Continue (set_lastActive (Some now) (snd (streamClose s t)))) /\
  (forall j, j <> s_sid s -> streams (snd (streamClose s t)) !! j = streams t !! j).
Proof.
  unfold streamClose, streamRecv, loopRead_step, loadStreamIO. cbn.
  rewrite lookup_delete_eq. repeat split.
  intros j Hj. apply lookup_delete_ne. congruence.
Qed.

(** ** Send path and stream creation *)

Lemma writeFrame_open D enc meta ftype data t p :
  Chan.chclosed (wchannel t) = false ->
  (length (Chan.buf (wchannel t)) < Chan.cap (wchannel t))%nat ->
  match data with None => inl [] | Some d => enc d end = inl p ->
  writeFrame D enc meta ftype data t =
  Ret (None, set_wchannel (Chan.mkChan (Chan.buf (wchannel t) ++ [newFrame meta ftype p])
                             (Chan.cap (wchannel t)) false) t).
Proof.
  intros Hc Hl Hp. unfold writeFrame. rewrite Hp. unfold Chan.send. rewrite Hc.
  destruct (decide _); [reflexivity|contradiction].
Qed.

(** X5: on an open write channel with room for two frames, [streamSend]
    queues, after what is already there, a Header frame carrying the
    header when it is non-empty, then the Data frame with the encoded
    payload. When the payload fails to encode, the error is returned and
    the Header frame has already been queued. *)
Theorem streamSend_header_then_data D enc id m wh res t :
  Chan.chclosed (wchannel t) = false ->
  (length (Chan.buf (wchannel t)) + 2 <= Chan.cap (wchannel t))%nat ->
  let hdrs := if decide (0 < length wh)%nat
              then [newFrame (mkStreamFrame id m wh []) headerFrameType []] else [] in
  match match res with None => inl [] | Some d => enc d end with
  | inl p =>
      streamSend D enc id m wh res t =
      Ret (None, set_wchannel (Chan.mkChan (Chan.buf (wchannel t) ++ hdrs ++
                  [newFrame (mkStreamFrame id m [] []) dataFrameType p])
                  (Chan.cap (wchannel t)) false) t)
  | inr e =>
      streamSend D enc id m wh res t =
      Ret (Some e, set_wchannel (Chan.mkChan (Chan.buf (wchannel t) ++ hdrs)
                  (Chan.cap (wchannel t)) false) t)
  end.
Proof.
  intros Hc Hl hdrs. subst hdrs. unfold streamSend, streamSendHeader.
  destruct (decide (0 < length wh)%nat) as [Hw|Hw].
  - rewrite (writeFrame_open D enc _ _ None t []) by (auto; lia). cbn [go_bind].
    destruct (match res with None => inl [] | Some d => enc d end) as [p|e] eqn:Hp.
    + rewrite (writeFrame_open D enc _ _ res _ p); simpl; auto.
      * rewrite <- app_assoc. reflexivity.
      * rewrite length_app. simpl. lia.
    + unfold writeFrame. rewrite Hp. reflexivity.
  - destruct (match res with None => inl [] | Some d => enc d end) as [p|e] eqn:Hp.
    + rewrite (writeFrame_open D enc _ _ res t p) by (auto; lia). reflexivity.
    + unfold writeFrame. rewrite Hp. destruct t as [k si ss sc sp [b c cl] la cc tr].
      simpl in *. subst cl. rewrite app_nil_r. reflexivity.
Qed.

Lemma streamSend_header_then_data_witness :
  Chan.chclosed (wchannel cli) = false /\
  (length (Chan.buf (wchannel cli)) + 2 <= Chan.cap (wchannel cli))%nat /\
  streamSend False no_encode 1 "echo" [("k", "v")] None cli =
  Ret (None, set_wchannel (Chan.mkChan (Chan.buf (wchannel cli) ++
         [newFrame (mkStreamFrame 1 "echo" [("k", "v")] []) headerFrameType []] ++
         [newFrame (mkStreamFrame 1 "echo" [] []) dataFrameType []])
         (Chan.cap (wchannel cli)) false) cli).
Proof.
  assert (H1 : Chan.chclosed (wchannel cli) = false) by reflexivity.
  assert (H2 : (length (Chan.buf (wchannel cli)) + 2 <= Chan.cap (wchannel cli))%nat)
    by (vm_compute; lia).
  split; [exact H1|]. split; [exact H2|].
  exact (streamSend_header_then_data False no_encode 1 "echo" [("k", "v")] None cli H1 H2).
Defined.

Lemma newStream_ok_aux c m hdr t mi :
  kind t = clientTransport -> sinfo t m = Some mi ->
  Chan.chclosed (wchannel t) = false ->
  (length (Chan.buf (wchannel t)) < Chan.cap (wchannel t))%nat ->
  let s := mkStream (mkStreamFrame (AddInt32 c 1) m hdr []) (StreamingMode_of mi) in
  newStream m hdr (c, t) =
  Ret (Some s, None, (AddInt32 c 1,
    set_wchannel (Chan.mkChan (Chan.buf (wchannel t) ++ [newFrame (s_frame s) headerFrameType []])
                   (Chan.cap (wchannel t)) false)
      (set_streams (<[AddInt32 c 1 := newStreamIO s]> (streams t)) t))).
Proof.
  intros Hk Hm Hc Hl s. unfold newStream. rewrite Hk. simpl.
  unfold methodStreamingMode. rewrite Hm. cbn [go_bind]. unfold newStream_. cbn [sid].
  rewrite (writeFrame_open False _ _ _ None _ []); simpl; auto.
Qed.

(** X6: on a client transport whose method is known and whose write
    channel has room, [newStream] registers a fresh [streamIO] (empty open
    pipe, no error) under the new sid, leaves every other sid's entry as it
    was, and queues exactly one Header frame carrying the sid, the method
    and the header, after the frames already queued. *)
Theorem newStream_registers_and_sends_header c m hdr t mi :
  kind t = clientTransport -> sinfo t m = Some mi ->
  Chan.chclosed (wchannel t) = false ->
  (length (Chan.buf (wchannel t)) < Chan.cap (wchannel t))%nat ->
  exists s t', newStream m hdr (c, t) = Ret (Some s, None, (AddInt32 c 1, t')) /\
    s_frame s = mkStreamFrame (AddInt32 c 1) m hdr [] /\
    loadStreamIO (AddInt32 c 1) t' = Some (newStreamIO s) /\
    (forall j, j <> AddInt32 c 1 -> streams t' !! j = streams t !! j) /\
    Chan.buf (wchannel t') = Chan.buf (wchannel t) ++ [newFrame (s_frame s) headerFrameType []].
Proof.
  intros Hk Hm Hc Hl. rewrite (newStream_ok_aux c m hdr t mi Hk Hm Hc Hl).
  eexists _, _. split; [reflexivity|]. split; [reflexivity|].
  unfold loadStreamIO. simpl. split; [apply lookup_insert_eq|]. split; [|reflexivity].
  intros j Hj. apply lookup_insert_ne. congruence.
Qed.

Lemma newStream_registers_and_sends_header_witness :
  exists s t', newStream "echo" [("k", "v")] (0, cli) = Ret (Some s, None, (AddInt32 0 1, t')) /\
    s_frame s = mkStreamFrame (AddInt32 0 1) "echo" [("k", "v")] [] /\
    loadStreamIO (AddInt32 0 1) t' = Some (newStreamIO s) /\
    (forall j, j <> AddInt32 0 1 -> streams t' !! j = streams cli !! j) /\
    Chan.buf (wchannel t') = Chan.buf (wchannel cli) ++ [newFrame (s_frame s) headerFrameType []].
Proof.
  apply (newStream_registers_and_sends_header 0 "echo" [("k", "v")] cli
           (mkMethodInfo StreamingBidirectional)); vm_compute; [reflexivity..|lia].
Defined.



Lemma AddInt32_succ c :
  - 2 ^ 31 <= c -> c < 2 ^ 31 - 1 -> AddInt32 c 1 = c + 1.
Proof.
  intros H1 H2. unfold AddInt32, wrap_int32.
  change (2 ^ 31) with 2147483648 in *. change (2 ^ 32) with 4294967296.
  rewrite Z.mod_small; lia.
Qed.

(** X8: two successive [newStream] calls on a client transport, away from
    the int32 overflow, get the sids [c + 1] and [c + 2]; both streams are
    registered and their two Header frames are queued in call order. *)
Theorem newStream_consecutive_sids c m1 m2 h1 h2 t mi1 mi2 :
  kind t = clientTransport -> sinfo t m1 = Some mi1 -> sinfo t m2 = Some mi2 ->
  Chan.chclosed (wchannel t) = false ->
  (length (Chan.buf (wchannel t)) + 2 <= Chan.cap (wchannel t))%nat ->
  - 2 ^ 31 <= c -> c + 2 <= 2 ^ 31 - 1 ->
  exists s1 s2 t1 t2,
    newStream m1 h1 (c, t) = Ret (Some s1, None, (c + 1, t1)) /\
    newStream m2 h2 (c + 1, t1) = Ret (Some s2, None, (c + 2, t2)) /\
    s_sid s1 = c + 1 /\ s_sid s2 = c + 2 /\
    loadStreamIO (c + 1) t2 = Some (newStreamIO s1) /\
    loadStreamIO (c + 2) t2 = Some (newStreamIO s2) /\
    Chan.buf (wchannel t2) = Chan.buf (wchannel t) ++
      [newFrame (s_frame s1) headerFrameType []; newFrame (s_frame s2) headerFrameType []].
Proof.
  intros Hk Hm1 Hm2 Hc Hl Hlo Hhi.
  pose proof (newStream_ok_aux c m1 h1 t mi1 Hk Hm1 Hc ltac:(lia)) as E1.
  rewrite (AddInt32_succ c) in E1 by lia.
  eexists _, _, _, _. split; [exact E1|].
  split.
  { etransitivity.
    - apply (newStream_ok_aux (c + 1) m2 h2 _ mi2); simpl; auto.
      rewrite length_app. simpl. lia.
    - rewrite (AddInt32_succ (c + 1)) by lia.
      replace (c + 1 + 1) with (c + 2) by lia. reflexivity. }
  split; [reflexivity|]. split; [reflexivity|].
  unfold loadStreamIO. simpl. split; [|split].
  - rewrite lookup_insert_ne by lia. apply lookup_insert_eq.
  - apply lookup_insert_eq.
  - rewrite <- app_assoc. reflexivity.
Qed.

Lemma newStream_consecutive_sids_witness :
  exists s1 s2 t1 t2,
    newStream "echo" [] (0, cli) = Ret (Some s1, None, (0 + 1, t1)) /\
    newStream "echo" [] (0 + 1, t1) = Ret (Some s2, None, (0 + 2, t2)) /\
    s_sid s1 = 0 + 1 /\ s_sid s2 = 0 + 2 /\
    loadStreamIO (0 + 1) t2 = Some (newStreamIO s1) /\
    loadStreamIO (0 + 2) t2 = Some (newStreamIO s2) /\
    Chan.buf (wchannel t2) = Chan.buf (wchannel cli) ++
      [newFrame (s_frame s1) headerFrameType []; newFrame (s_frame s2) headerFrameType []].
Proof.
  apply (newStream_consecutive_sids 0 "echo" "echo" [] [] cli
           (mkMethodInfo StreamingBidirectional) (mkMethodInfo StreamingBidirectional));
    vm_compute; [reflexivity..|lia|discriminate|discriminate].
Defined.

(** ** Accepting streams on the server *)

(** X9: with an empty stream cache and more than [streamCacheSize] (32)
    streams pending in the pipe, [readStream] reads one batch of 32, returns
    the 32nd pending stream, keeps the 31 before it in the cache and leaves
    the rest in the pipe. *)
Theorem readStream_reads_batch_of_32 t xs :
  kind t = serverTransport -> scache t = [] -> Pipe.queue (spipe t) = xs ->
  (streamCacheSize < length xs)%nat ->
  exists s t', readStream t = Ret (Some s, None, t') /\
    xs !! 31%nat = Some s /\ scache t' = take 31 xs /\
    Pipe.queue (spipe t') = drop 32 xs.
Proof.
  intros Hk Hc Hq Hn. unfold streamCacheSize in Hn.
  destruct (xs !! 31%nat) as [s|] eqn:Hs;
    [|apply lookup_ge_None in Hs; lia].
  unfold readStream. rewrite Hk. cbn [negb Z.eqb serverTransport Pos.eqb]. cbn [readStream_loop].
  unfold pop_scache at 1. rewrite Hc. cbn [last go_bind].
  unfold Pipe.Read. rewrite get_loop_take_drop, Hq. unfold streamCacheSize.
  rewrite (take_S_r xs 31 s Hs).
  destruct (take 31 xs ++ [s]) eqn:E; [destruct (take 31 xs); discriminate|].
  rewrite <- E. cbn [go_bind readStream_loop]. unfold pop_scache. simpl.
  rewrite last_snoc, removelast_last. rewrite E.
  eexists _, _. split; [reflexivity|]. simpl. auto.
Qed.

Lemma readStream_reads_batch_of_32_witness :
  exists s t', readStream srv_many_pending = Ret (Some s, None, t') /\
    Pipe.queue (spipe srv_many_pending) !! 31%nat = Some s /\
    scache t' = take 31 (Pipe.queue (spipe srv_many_pending)) /\
    Pipe.queue (spipe t') = drop 32 (Pipe.queue (spipe srv_many_pending)).
Proof.
  apply (readStream_reads_batch_of_32 srv_many_pending (Pipe.queue (spipe srv_many_pending)));
    [vm_compute; reflexivity | vm_compute; reflexivity | reflexivity | vm_compute; lia].
Defined.

(** X10: with an empty stream cache and no stream pending, [readStream]
    on a server transport returns [EOF] (and no stream) once the pipe is
    closed, and blocks while it is open. *)
Theorem readStream_nothing_pending t :
  kind t = serverTransport -> scache t = [] -> Pipe.queue (spipe t) = [] ->
  readStream t = if Pipe.closed (spipe t) then Ret (None, Some EOF, t) else Blocked.
Proof.
  intros Hk Hc Hq. unfold readStream. rewrite Hk. cbn [negb Z.eqb serverTransport Pos.eqb].
  cbn [readStream_loop]. unfold pop_scache. rewrite Hc. cbn [last go_bind].
  unfold Pipe.Read. rewrite get_loop_take_drop, Hq. cbn.
  destruct (Pipe.closed (spipe t)) eqn:Hcl; [|reflexivity]. cbn.
  destruct t as [k si ss sc [q c] wc la cc tr]. simpl in *. subst. reflexivity.
Qed.

Lemma readStream_nothing_pending_witness :
  kind srv = serverTransport /\ scache srv = [] /\ Pipe.queue (spipe srv) = [] /\
  readStream srv = if Pipe.closed (spipe srv) then Ret (None, Some EOF, srv) else Blocked.
Proof.
  assert (H1 : kind srv = serverTransport) by (vm_compute; reflexivity).
  assert (H2 : scache srv = []) by (vm_compute; reflexivity).
  assert (H3 : Pipe.queue (spipe srv) = []) by (vm_compute; reflexivity).
  split; [exact H1|]. split; [exact H2|]. split; [exact H3|].
  exact (readStream_nothing_pending srv H1 H2 H3).
Defined.

(** ** Writer loop *)

Lemma loopWrite_drain_aux enc fl cap fs bss out :
  Forall2 (fun f bs => enc f = inl bs) fs bss -> (forall o, fl o = None) -> fs <> [] ->
  loopWrite enc fl (S (length fs)) (Chan.mkChan fs cap true) out =
  Ret (None, Chan.mkChan [] cap true, out ++ map WBytes bss ++ [WFlush]).
Proof.
  intros HF Hfl. revert out. induction HF as [|f bs fs bss Hf HF IH]; intros out Hne;
    [contradiction|].
  cbn [length loopWrite Chan.buf]. rewrite Hf. cbn [Chan.cap Chan.chclosed].
  destruct fs as [|f' fs'].
  - inversion HF; subst. cbn. rewrite Hfl. cbn. rewrite <- app_assoc. reflexivity.
  - destruct (decide (length (f' :: fs') = 0%nat)) as [E|_]; [discriminate|].
    replace (out ++ map WBytes (bs :: bss) ++ [WFlush])
      with ((out ++ [WBytes bs]) ++ map WBytes bss ++ [WFlush])
      by (simpl; rewrite <- app_assoc; reflexivity).
    apply IH. discriminate.
Qed.

(** X11: once the write channel is closed, [loopWrite] still writes every
    frame buffered in it, in order, flushes exactly once after the last one
    (when the channel has become empty) and returns nil, provided every
    frame encodes and the flush succeeds. *)
Theorem loopWrite_drains_closed_channel enc fl cap fs bss :
  Forall2 (fun f bs => enc f = inl bs) fs bss -> (forall o, fl o = None) -> fs <> [] ->
  loopWrite enc fl (S (length fs)) (Chan.mkChan fs cap true) [] =
  Ret (None, Chan.mkChan [] cap true, map WBytes bss ++ [WFlush]).
Proof.
  intros HF Hfl Hne. exact (loopWrite_drain_aux enc fl cap fs bss [] HF Hfl Hne).
Qed.

Definition frame_bytes (f : Frame) : list Byte.byte + goerr := inl (payload f).
Definition flush_ok (_ : list wevent) : option goerr := None.

Lemma loopWrite_drains_closed_channel_witness :
  Forall2 (fun f bs => frame_bytes f = inl bs)
    [data_frame 1 "echo" [Byte.x01]; data_frame 1 "echo" [Byte.x02]] [[Byte.x01]; [Byte.x02]] /\
  loopWrite frame_bytes flush_ok 3
    (Chan.mkChan [data_frame 1 "echo" [Byte.x01]; data_frame 1 "echo" [Byte.x02]] 32 true) [] =
  Ret (None, Chan.mkChan [] 32 true, map WBytes [[Byte.x01]; [Byte.x02]] ++ [WFlush]).
Proof.
  assert (H : Forall2 (fun f bs => frame_bytes f = inl bs)
    [data_frame 1 "echo" [Byte.x01]; data_frame 1 "echo" [Byte.x02]] [[Byte.x01]; [Byte.x02]])
    by (repeat constructor).
  split; [exact H|].
  exact (loopWrite_drains_closed_channel frame_bytes flush_ok 32 _ _ H
           (fun _ => eq_refl) ltac:(discriminate)).
Defined.

Lemma loopWrite_encode_error_aux enc fl cap cl pre bss f e rest out :
  Forall2 (fun f bs => enc f = inl bs) pre bss -> enc f = inr e ->
  loopWrite enc fl (S (length pre)) (Chan.mkChan (pre ++ f :: rest) cap cl) out =
  Ret (Some e, Chan.mkChan rest cap cl, out ++ map WBytes bss).
Proof.
  intros HF He. revert out. induction HF as [|g bs pre bss Hg HF IH]; intros out.
  - cbn. rewrite He. rewrite app_nil_r. reflexivity.
  - cbn [length loopWrite Chan.buf app]. rewrite Hg. cbn [Chan.cap Chan.chclosed].
    destruct (decide (length (pre ++ f :: rest) = 0%nat)) as [E|_].
    { rewrite length_app in E. simpl in E. lia. }
    replace (out ++ map WBytes (bs :: bss)) with ((out ++ [WBytes bs]) ++ map WBytes bss)
      by (simpl; rewrite <- app_assoc; reflexivity).
    apply IH.
Qed.

(** X12: [loopWrite] stops at the first frame that fails to encode and
    returns that error: the frames before it have been written, with no
    flush, and the frames after it stay in the channel. *)
Theorem loopWrite_stops_at_encode_error enc fl cap cl pre bss f e rest :
  Forall2 (fun f bs => enc f = inl bs) pre bss -> enc f = inr e ->
  loopWrite enc fl (S (length pre)) (Chan.mkChan (pre ++ f :: rest) cap cl) [] =
  Ret (Some e, Chan.mkChan rest cap cl, map WBytes bss).
Proof.
  intros HF He. exact (loopWrite_encode_error_aux enc fl cap cl pre bss f e rest [] HF He).
Qed.

Definition bytes_unless_empty (f : Frame) : list Byte.byte + goerr :=
  match payload f with [] => inr (Errorf "empty frame") | p => inl p end.

Lemma loopWrite_stops_at_encode_error_witness :
  Forall2 (fun f bs => bytes_unless_empty f = inl bs) [data_frame 1 "echo" [Byte.x01]] [[Byte.x01]] /\
  bytes_unless_empty (data_frame 1 "echo" []) = inr (Errorf "empty frame") /\
  loopWrite bytes_unless_empty flush_ok 2
    (Chan.mkChan ([data_frame 1 "echo" [Byte.x01]] ++
                  data_frame 1 "echo" [] :: [data_frame 1 "echo" [Byte.x02]]) 32 false) [] =
  Ret (Some (Errorf "empty frame"), Chan.mkChan [data_frame 1 "echo" [Byte.x02]] 32 false,
       map WBytes [[Byte.x01]]).
Proof.
  assert (H1 : Forall2 (fun f bs => bytes_unless_empty f = inl bs)
                 [data_frame 1 "echo" [Byte.x01]] [[Byte.x01]]) by (repeat constructor).
  assert (H2 : bytes_unless_empty (data_frame 1 "echo" []) = inr (Errorf "empty frame"))
    by reflexivity.
  split; [exact H1|]. split; [exact H2|].
  exact (loopWrite_stops_at_encode_error bytes_unless_empty flush_ok 32 false _ _ _ _ _ H1 H2).
Defined.

(** ** Close callback of a stream *)

Module CloseCallbackCounts.
Import CloseCallback.

Fixpoint cnt (f : pc -> nat) (ths : list pc) : nat :=
  match ths with
  | [] => O
  | p :: ths' => (f p + cnt f ths')%nat
  end.

Definition f_pre (p : pc) : nat := match p with CloseRecv | AddEof => 1 | _ => 0 end.
Definition f_cas (p : pc) : nat := match p with RunCas => 1 | _ => 0 end.
Definition f_inv (p : pc) : nat := match p with Invoke => 1 | _ => 0 end.
Definition f_other (p : pc) : nat :=
  match p with ClosePipe | CancelPipe | StreamClose => 1 | _ => 0 end.

Lemma cnt_insert f (ths : list pc) i p q :
  ths !! i = Some p -> (cnt f (<[i := q]> ths) + f p = cnt f ths + f q)%nat.
Proof.
  revert i; induction ths as [|p' ths IH]; intros [|i] Hi; simpl in *; try discriminate.
  - injection Hi as ->. lia.
  - specialize (IH i Hi). lia.
Qed.

(** Only [closeRecv] and [closeSend] run, each adding to [eofFlag] once. *)
Definition inv2 (c : state * list pc) : Prop :=
  let '(s, ths) := c in
  hasCloseCallback s = true /\ cnt f_other ths = 0%nat /\ 0 <= eofFlag s /\
  eofFlag s + Z.of_nat (cnt f_pre ths) = 2 /\
  (eofFlag s < 2 -> callbackFlag s = 0 /\ calls s = 0%nat /\
                    cnt f_cas ths = 0%nat /\ cnt f_inv ths = 0%nat) /\
  (eofFlag s = 2 ->
     (callbackFlag s = 0 /\ cnt f_cas ths = 1%nat /\ cnt f_inv ths = 0%nat /\ calls s = 0%nat) \/
     (callbackFlag s = 1 /\ cnt f_cas ths = 0%nat /\ (cnt f_inv ths + calls s = 1)%nat)).

Lemma inv2_step c c' : step c c' -> inv2 c -> inv2 c'.
Proof.
  intros [s ths i p Hi] Hinv. simpl in Hinv.
  destruct Hinv as (Hcb & Ho & H0 & Heof & Hlt & Heq).
  pose proof (cnt_insert f_pre ths i p (fst (thread_step p s)) Hi) as Cp.
  pose proof (cnt_insert f_cas ths i p (fst (thread_step p s)) Hi) as Cc.
  pose proof (cnt_insert f_inv ths i p (fst (thread_step p s)) Hi) as Ci.
  pose proof (cnt_insert f_other ths i p (fst (thread_step p s)) Hi) as Co.
  destruct p; cbn -[AddInt32] in *; try (split; [first [reflexivity | exact Hcb]|lia]).
  - (* AddEof *)
    rewrite Hcb in *. cbn -[AddInt32] in *.
    rewrite (AddInt32_succ (eofFlag s)) in * by lia.
    destruct (Z.eqb_spec (eofFlag s + 1) 2); simpl in *; (split; [exact Hcb|lia]).
  - (* RunCas *)
    rewrite Hcb in *. simpl in *.
    destruct (Z.eqb_spec (callbackFlag s) 0); simpl in *; (split; [exact Hcb|lia]).
Qed.

Lemma inv2_steps c c' : steps c c' -> inv2 c -> inv2 c'.
Proof. induction 1; eauto using inv2_step. Qed.

Lemma cnt_all_done f ths : f Done = 0%nat -> Forall (fun p => p = Done) ths -> cnt f ths = 0%nat.
Proof. intros Hf HF. induction HF; simpl; [reflexivity|]. subst. lia. Qed.

(** Without a callback, [eofFlag] and [callbackFlag] never lead to [Invoke]. *)
Definition inv0 (calls0 : nat) (c : state * list pc) : Prop :=
  let '(s, ths) := c in
  hasCloseCallback s = false /\ count_invoke ths = 0%nat /\ calls s = calls0.

Lemma inv0_steps calls0 c c' : steps c c' -> inv0 calls0 c -> inv0 calls0 c'.
Proof.
  induction 1 as [|c1 c2 c3 Hs _ IH]; [auto|]. intros H. apply IH. clear IH.
  destruct Hs as [s ths i p Hi]. simpl in *. destruct H as (Hcb & Hc & Hcalls).
  pose proof (CloseCallbackFacts.count_invoke_insert ths i p (fst (thread_step p s)) Hi) as C.
  destruct p; simpl in *; rewrite ?Hcb in *; simpl in *; (split; [first [reflexivity | exact Hcb] | lia]).
Qed.

End CloseCallbackCounts.

(** X13: when [closeRecv] and [closeSend] of a stream with a close
    callback both run to completion, in whatever interleaving, the
    callback has been invoked exactly once. *)
Theorem half_closes_invoke_callback_exactly_once s ths :
  CloseCallback.steps
    (CloseCallback.mkState 0 0 true false false false 0,
     [CloseCallback.CloseRecv; CloseCallback.AddEof]) (s, ths) ->
  Forall (fun p => p = CloseCallback.Done) ths ->
  CloseCallback.calls s = 1%nat.
Proof.
  intros Hs Hd.
  assert (Hi : CloseCallbackCounts.inv2 (s, ths)).
  { apply (CloseCallbackCounts.inv2_steps _ _ Hs). simpl. lia. }
  simpl in Hi.
  pose proof (CloseCallbackCounts.cnt_all_done CloseCallbackCounts.f_pre ths eq_refl Hd).
  pose proof (CloseCallbackCounts.cnt_all_done CloseCallbackCounts.f_cas ths eq_refl Hd).
  pose proof (CloseCallbackCounts.cnt_all_done CloseCallbackCounts.f_inv ths eq_refl Hd).
  lia.
Qed.

Lemma half_closes_invoke_callback_exactly_once_witness :
  exists s ths,
    CloseCallback.run [0; 0; 1; 1; 1]%nat
      (CloseCallback.mkState 0 0 true false false false 0,
       [CloseCallback.CloseRecv; CloseCallback.AddEof]) = Some (s, ths) /\
    Forall (fun p => p = CloseCallback.Done) ths /\ CloseCallback.calls s = 1%nat.
Proof.
  eexists _, _. split; [reflexivity|].
  split; [repeat constructor|].
  eapply half_closes_invoke_callback_exactly_once;
    [apply (CloseCallbackFacts.run_steps [0; 0; 1; 1; 1]%nat); reflexivity | repeat constructor].
Defined.

(** X14: a stream without a close callback never invokes one, whatever
    its goroutines ([closeRecv], [closeSend], [close], [cancel]) do and in
    whatever interleaving. *)
Theorem no_callback_never_invoked s0 ths0 s ths :
  CloseCallback.hasCloseCallback s0 = false -> CloseCallback.count_invoke ths0 = 0%nat ->
  CloseCallback.steps (s0, ths0) (s, ths) ->
  CloseCallback.calls s = CloseCallback.calls s0.
Proof.
  intros Hcb Hc Hs.
  destruct (CloseCallbackCounts.inv0_steps (CloseCallback.calls s0) _ _ Hs) as (_ & _ & H);
    [simpl; auto|exact H].
Qed.

Lemma no_callback_never_invoked_witness :
  exists s ths,
    CloseCallback.run [0; 0; 1; 2; 2; 2; 1; 3; 3; 3]%nat
      (CloseCallback.mkState 0 0 false false false false 0,
       [CloseCallback.CloseRecv; CloseCallback.AddEof; CloseCallback.CancelPipe;
        CloseCallback.ClosePipe]) = Some (s, ths) /\
    CloseCallback.calls s = 0%nat.
Proof.
  eexists _, _. split; [reflexivity|].
  eapply (no_callback_never_invoked (CloseCallback.mkState 0 0 false false false false 0)
           [CloseCallback.CloseRecv; CloseCallback.AddEof; CloseCallback.CancelPipe;
            CloseCallback.ClosePipe]);
    [reflexivity | reflexivity |
     apply (CloseCallbackFacts.run_steps [0; 0; 1; 2; 2; 2; 1; 3; 3; 3]%nat); reflexivity].
Defined.

(** ** The pipe *)

(** X15: [Pipe.Read] with a buffer of [k >= 1] items returns the first
    [min k (length q)] queued items, closed pipe or not; only on an empty
    queue does it return [EOF] (closed) or block (open). *)
Theorem pipe_read_takes_prefix {Item} (k : nat) (q : list Item) (c : bool) :
  (0 < k)%nat ->
  Pipe.Read k (Pipe.mkPipe q c) =
  match q with
  | [] => if c then Ret ([], Some PipeEOF, Pipe.mkPipe [] c) else Blocked
  | _ :: _ => Ret (take k q, None, Pipe.mkPipe (drop k q) c)
  end.
Proof.
  intros Hk. unfold Pipe.Read. rewrite get_loop_take_drop. simpl.
  destruct q as [|x q]; [rewrite take_nil, drop_nil; reflexivity|].
  destruct k as [|k]; [lia|]. reflexivity.
Qed.

Lemma pipe_read_takes_prefix_witness :
  (0 < 2)%nat /\
  Pipe.Read 2 (Pipe.mkPipe [1; 2; 3]%nat true) = Ret ([1; 2]%nat, None, Pipe.mkPipe [3]%nat true).
Proof.
  split; [lia|]. exact (pipe_read_takes_prefix 2 [1; 2; 3]%nat true ltac:(lia)).
Defined.

(** ** Call options and stream arguments in the context *)

Lemma Apply_appends l cbs pre h :
  Ctx.cells h !! l = Some pre ->
  exists h', Ctx.Apply (Some l) (map Ctx.WithStreamCloseCallback cbs) h = Ret h' /\
    Ctx.cells h' !! l = Some (pre ++ cbs) /\ Ctx.next_loc h' = Ctx.next_loc h /\
    (forall l', l' <> l -> Ctx.cells h' !! l' = Ctx.cells h !! l').
Proof.
  revert pre h. induction cbs as [|cb cbs IH]; intros pre h Hl.
  - exists h. rewrite app_nil_r. auto.
  - cbn [map Ctx.Apply]. rewrite Hl.
    destruct (IH (pre ++ [cb]) (Ctx.mkHeap (Ctx.next_loc h)
                  (<[l := Ctx.opt_f (Ctx.WithStreamCloseCallback cb) pre]> (Ctx.cells h))))
      as (h' & H1 & H2 & H3 & H4); [simpl; apply lookup_insert_eq|].
    exists h'. split; [exact H1|]. rewrite <- app_assoc in H2. split; [exact H2|].
    split; [exact H3|]. intros l' Hne. rewrite H4 by exact Hne. simpl.
    apply lookup_insert_ne. congruence.
Qed.

(** X16: the [CallOptions] made by [NewCtxWithCallOptions] is a fresh
    object, and it is the one found in the new context: applying
    [WithStreamCloseCallback] options through [GetCallOptionsFromCtx] of
    that context records exactly their callbacks, in order, on that object
    and on no other. *)
Theorem call_options_applied_through_context ctx h cbs ctx' l h1 :
  (forall l', is_Some (Ctx.cells h !! l') -> (l' < Ctx.next_loc h)%nat) ->
  Ctx.NewCtxWithCallOptions ctx h = (ctx', l, h1) ->
  Ctx.GetCallOptionsFromCtx ctx' = Some l /\ Ctx.cells h !! l = None /\
  exists h2, Ctx.Apply (Ctx.GetCallOptionsFromCtx ctx') (map Ctx.WithStreamCloseCallback cbs) h1
             = Ret h2 /\
    Ctx.cells h2 !! l = Some cbs /\
    (forall l', l' <> l -> Ctx.cells h2 !! l' = Ctx.cells h !! l').
Proof.
  intros Hwf Hn. unfold Ctx.NewCtxWithCallOptions in Hn. injection Hn as <- <- <-.
  unfold Ctx.GetCallOptionsFromCtx. simpl.
  split; [reflexivity|]. split.
  { destruct (Ctx.cells h !! Ctx.next_loc h) eqn:E; [|reflexivity].
    specialize (Hwf (Ctx.next_loc h) ltac:(rewrite E; eauto)). lia. }
  destruct (Apply_appends (Ctx.next_loc h) cbs []
              (Ctx.mkHeap (S (Ctx.next_loc h)) (<[Ctx.next_loc h := []]> (Ctx.cells h))))
    as (h2 & H1 & H2 & _ & H4); [simpl; apply lookup_insert_eq|].
  exists h2. split; [exact H1|]. split; [exact H2|].
  intros l' Hne. rewrite H4 by exact Hne. simpl. apply lookup_insert_ne. congruence.
Qed.

Lemma call_options_applied_through_context_witness :
  (forall l', is_Some (Ctx.cells Ctx.empty_heap !! l') -> (l' < Ctx.next_loc Ctx.empty_heap)%nat) /\
  Ctx.NewCtxWithCallOptions Ctx.Background Ctx.empty_heap =
    (Ctx.WithValue Ctx.Background Ctx.KeyCallOptions (Ctx.ValCallOptions 0), 0%nat,
     Ctx.mkHeap 1 {[0%nat := []]}) /\
  (Ctx.GetCallOptionsFromCtx (Ctx.WithValue Ctx.Background Ctx.KeyCallOptions (Ctx.ValCallOptions 0))
     = Some 0%nat /\ Ctx.cells Ctx.empty_heap !! 0%nat = None /\
   exists h2, Ctx.Apply (Ctx.GetCallOptionsFromCtx
                 (Ctx.WithValue Ctx.Background Ctx.KeyCallOptions (Ctx.ValCallOptions 0)))
                 (map Ctx.WithStreamCloseCallback [7; 8]%nat) (Ctx.mkHeap 1 {[0%nat := []]}) = Ret h2 /\
     Ctx.cells h2 !! 0%nat = Some [7; 8]%nat /\
     (forall l', l' <> 0%nat -> Ctx.cells h2 !! l' = Ctx.cells Ctx.empty_heap !! l')).
Proof.
  assert (H1 : forall l', is_Some (Ctx.cells Ctx.empty_heap !! l') ->
                          (l' < Ctx.next_loc Ctx.empty_heap)%nat).
  { intros l' [x Hx]. simpl in Hx. rewrite lookup_empty in Hx. discriminate. }
  assert (H2 : Ctx.NewCtxWithCallOptions Ctx.Background Ctx.empty_heap =
    (Ctx.WithValue Ctx.Background Ctx.KeyCallOptions (Ctx.ValCallOptions 0), 0%nat,
     Ctx.mkHeap 1 {[0%nat := []]})) by reflexivity.
  split; [exact H1|]. split; [exact H2|].
  exact (call_options_applied_through_context Ctx.Background Ctx.empty_heap [7; 8]%nat _ _ _ H1 H2).
Defined.

(** X17: [Apply] of a non-empty option list through
    [GetCallOptionsFromCtx] of a context that holds no call options
    dereferences a nil [*CallOptions] and panics. *)
Theorem Apply_without_call_options_panics ctx o opts h :
  Ctx.Value ctx Ctx.KeyCallOptions = None ->
  Ctx.Apply (Ctx.GetCallOptionsFromCtx ctx) (o :: opts) h =
  Panic "invalid memory address or nil pointer dereference".
Proof. intros Hv. unfold Ctx.GetCallOptionsFromCtx. rewrite Hv. reflexivity. Qed.

Lemma Apply_without_call_options_panics_witness :
  Ctx.Value (Ctx.WithStreamArgsContext Ctx.Background (Some 1%nat)) Ctx.KeyCallOptions = None /\
  Ctx.Apply (Ctx.GetCallOptionsFromCtx (Ctx.WithStreamArgsContext Ctx.Background (Some 1%nat)))
    [Ctx.WithStreamCloseCallback 7] Ctx.empty_heap =
  Panic "invalid memory address or nil pointer dereference".
Proof.
  assert (H : Ctx.Value (Ctx.WithStreamArgsContext Ctx.Background (Some 1%nat))
                Ctx.KeyCallOptions = None) by reflexivity.
  split; [exact H|].
  exact (Apply_without_call_options_panics _ (Ctx.WithStreamCloseCallback 7) [] Ctx.empty_heap H).
Defined.


(** ** Generic service *)

(** X19: on the server, the generic handler is called with the method
    name given to [Args.Read] and the request its reader decoded; on a
    fresh [Result], [GetSuccess] then returns the handler's response when
    it succeeds, and stays nil when it fails, the error being returned. *)
Theorem generic_call_after_Args_Read GenericCall rw m n inp inner rinner req :
  Generic.inner_error inner = None -> Generic.inner_reader inner = Some rw ->
  rw m false n inp = (req, None) ->
  exists a, Generic.Args_Read m n inp (Generic.mkArgs None "" inner) = (None, a) /\
    Generic.Method a = m /\ Generic.Request a = req /\
    forall err r', Generic.callHandler GenericCall a (Generic.mkResult None rinner) = (err, r') ->
      (err = None -> Generic.GetSuccess r' = fst (GenericCall m req)) /\
      (err <> None -> err = snd (GenericCall m req) /\ Generic.GetSuccess r' = None).
Proof.
  intros He Hr Hrw. unfold Generic.Args_Read. simpl. rewrite He, Hr, Hrw.
  eexists. split; [reflexivity|]. simpl. split; [reflexivity|]. split; [reflexivity|].
  intros err r'. unfold Generic.callHandler. simpl.
  destruct (GenericCall m req) as [succ [e|]]; intros H; injection H as <- <-.
  - split; [discriminate|]. auto.
  - split; [|congruence]. intros _. unfold Generic.GetSuccess, Generic.IsSetSuccess. simpl.
    destruct succ; reflexivity.
Qed.

Definition echo_reader (m : string) (_ : bool) (n : nat) (_ : list Byte.byte)
  : option nat * option goerr := (Some n, None).
Definition echo_call (_ : string) (req : option nat) : option nat * option goerr := (req, None).

Lemma generic_call_after_Args_Read_witness :
  exists a, Generic.Args_Read "echo" 4 [] (Generic.mkArgs None "" (Generic.mkInner None (Some echo_reader)))
            = (None, a) /\
    Generic.Method a = "echo" /\ Generic.Request a = Some 4%nat /\
    forall err r', Generic.callHandler echo_call a (Generic.mkResult None (Generic.mkInner None None))
                   = (err, r') ->
      (err = None -> Generic.GetSuccess r' = fst (echo_call "echo" (Some 4%nat))) /\
      (err <> None -> err = snd (echo_call "echo" (Some 4%nat)) /\ Generic.GetSuccess r' = None).
Proof.
  exact (generic_call_after_Args_Read echo_call echo_reader "echo" 4 []
           (Generic.mkInner None (Some echo_reader)) (Generic.mkInner None None) (Some 4%nat)
           eq_refl eq_refl eq_refl).
Defined.


(** ** The connection buffer *)

Lemma run_ops_consumed os c :
  (ConnBuffer.readSize (ConnBuffer.run_ops os c) + length (ConnBuffer.input (ConnBuffer.run_ops os c))
   = ConnBuffer.readSize c + length (ConnBuffer.input c))%nat /\
  (length (ConnBuffer.input (ConnBuffer.run_ops os c)) <= length (ConnBuffer.input c))%nat.
Proof.
  revert c. induction os as [|o os IH]; intros c; [simpl; lia|].
  destruct (IH (ConnBuffer.run_op o c)) as [H1 H2]. unfold ConnBuffer.run_ops in *. simpl.
  enough (Ho : (ConnBuffer.readSize (ConnBuffer.run_op o c) +
                length (ConnBuffer.input (ConnBuffer.run_op o c))
                = ConnBuffer.readSize c + length (ConnBuffer.input c))%nat /\
               (length (ConnBuffer.input (ConnBuffer.run_op o c)) <=
                length (ConnBuffer.input c))%nat)
    by lia.
  destruct o as [n|n|n|n]; simpl; unfold ConnBuffer.Next, ConnBuffer.ReadBinary, ConnBuffer.Skip,
    ConnBuffer.reader_Next; simpl;
    repeat (destruct (decide _)); simpl; rewrite ?length_take, ?length_drop; lia.
Qed.

(** X21: after [Release], whatever sequence of [Next], [ReadBinary],
    [Peek] and [Skip] calls follows, successful or not, [ReadLen] is the
    number of bytes consumed from the connection's reader since then;
    [Peek] counts nothing. *)
Theorem ReadLen_counts_consumed_bytes os c :
  ConnBuffer.ReadLen (ConnBuffer.run_ops os (ConnBuffer.Release c)) =
  (length (ConnBuffer.input c) - length (ConnBuffer.input (ConnBuffer.run_ops os (ConnBuffer.Release c))))%nat.
Proof.
  destruct (run_ops_consumed os (ConnBuffer.Release c)) as [H1 H2].
  unfold ConnBuffer.ReadLen. simpl in *. lia.
Qed.


